(** * The weighted draw engine of the room lottery

    A shallow embedding of the two weighted draws of the storage layer,
    [getRandomRooms] and [getRandomRoomItemsWithDetails], as they are written
    in the persistent backend ([DatabaseStorage]) and in the in-memory backend
    ([MemStorage]), followed by the properties of the draw.

    Conventions of the embedding.
    - A JavaScript integer is a [Z]; the columns read by the draw are
      [integer] columns and [count] comes from [parseInt] or from the
      [items_to_show] column.
    - [Map<number, number>] is a [gmap Z Z], [Set<number>] a [gset Z].
    - The two awaited queries at the head of each method ([getRooms],
      [getRoomById], [getRoomItemsWithDetails]) are taken as arguments: the
      catalog, the looked-up room (or [None]) and the assignment list.
    - [array.sort(() => 0.5 - Math.random())] is the injected function
      [shuffle]; all that is ever assumed of it is that it returns a
      permutation of its argument. *)

From Stdlib Require Import ZArith List Lia Permutation.
From stdpp Require Import base decidable list gmap.
Import ListNotations.

Local Open Scope Z_scope.

(** ** Data model (shared/schema.ts) *)

Module Room.
  (** The columns of [rooms] the draw reads, and [itemsToShow] which the
      route reads to compute [count]. *)
Record t : Type := mk
    { id : Z;
      probability : Z;
      itemsToShow : Z;
      randomizeRepeats : bool }.

#[global] Instance eq_dec : EqDecision t.
Proof. solve_decision. Defined.
End Room.

Module RoomItem.
  (** [RoomItemWithDetails]: a row of [room_items]; the joined [item] is a
      payload the draw never inspects and is left out. *)
Record t : Type := mk
    { id : Z;
      roomId : Z;
      itemId : Z;
      probability : Z;
      canRepeat : bool;
      maxRepeats : Z;
      isGuaranteed : bool }.

#[global] Instance eq_dec : EqDecision t.
Proof. solve_decision. Defined.
End RoomItem.

(** ** JavaScript primitives

    [x || d] on numbers: [0] is falsy. *)
Definition js_or (x d : Z) : Z := if decide (x = 0) then d else x.

(** The outcome of a method that may [throw]. *)
Inductive outcome (A : Type) : Type :=
| Ok (a : A)
| Throw.
Arguments Ok {A} a.
Arguments Throw {A}.

(** [array.slice(0, count)] for an integer [count]: a negative end counts
    from the back of the array. *)
Definition slice0 {A : Type} (l : list A) (count : Z) : list A :=
  if decide (count < 0)
  then take (Z.to_nat (Z.max (Z.of_nat (length l) + count) 0)) l
  else take (Z.to_nat count) l.

(** ** The for-of walk over rooms, shared by the two backends

    [for (const room of shuffled) { if (selectedIds.has(room.id)) continue;
    selectedRooms.push(room); selectedIds.add(room.id);
    if (selectedRooms.length === count) break; }], from the given
    [selectedRooms] and [selectedIds] to the ones it leaves. *)
Fixpoint pickRooms (count : Z) (shuffled : list Room.t)
    (selectedRooms : list Room.t) (selectedIds : gset Z) : list Room.t * gset Z :=
  match shuffled with
  | [] => (selectedRooms, selectedIds)
  | room :: rest =>
    if decide (Room.id room ∈ selectedIds)
    then pickRooms count rest selectedRooms selectedIds
    else
      let selectedRooms' := selectedRooms ++ [room] in
      let selectedIds' := selectedIds ∪ {[Room.id room]} in
      if decide (Z.of_nat (length selectedRooms') = count)
      then (selectedRooms', selectedIds')
      else pickRooms count rest selectedRooms' selectedIds'
  end.

(** [allRooms.forEach(room => { for (i = 0; i < room.probability; i++)
    weightedRooms.push(room) })] *)
Definition weightedRooms (allRooms : list Room.t) : list Room.t :=
  allRooms ≫= (fun room => replicate (Z.to_nat (Room.probability room)) room).

(** The copies of an assignment in the item pool:
    [Math.max(1, Math.floor((roomItem.probability || 100) / 10))]. *)
Definition copies (roomItem : RoomItem.t) : nat :=
  Z.to_nat (Z.max 1 (js_or (RoomItem.probability roomItem) 100 / 10)).

Definition buildItemPool (items : list RoomItem.t) : list RoomItem.t :=
  items ≫= (fun roomItem => replicate (copies roomItem) roomItem).

(** ** The pool-consumption loop, shared by the two backends *)

Record LoopState : Type := mkLoop
  { itemPool : list RoomItem.t;
    itemRepeatCounts : gmap Z Z;
    result : list RoomItem.t }.

(** [result.length < count && itemPool.length > 0] *)
Definition loopGuard (count : Z) (s : LoopState) : bool :=
  bool_decide (Z.of_nat (length (result s)) < count)
  && bool_decide (0 < length (itemPool s))%nat.

(** One pass through the body of the [while]. *)
Definition loopBody (randomizeRepeats : bool) (count : Z) (s : LoopState) : LoopState :=
  match itemPool s with
  | [] => s
  | roomItem :: rest =>
    let currentRepeatCount :=
      js_or (default 0 (itemRepeatCounts s !! RoomItem.itemId roomItem)) 0 in
    if negb (RoomItem.canRepeat roomItem) && bool_decide (0 < currentRepeatCount)
    then mkLoop rest (itemRepeatCounts s) (result s)
    else if RoomItem.canRepeat roomItem
            && bool_decide (js_or (RoomItem.maxRepeats roomItem) 1 <= currentRepeatCount)
    then mkLoop rest (itemRepeatCounts s) (result s)
    else
      let result' := result s ++ [roomItem] in
      let counts' :=
        <[RoomItem.itemId roomItem := currentRepeatCount + 1]> (itemRepeatCounts s) in
      if randomizeRepeats && RoomItem.canRepeat roomItem
         && bool_decide (currentRepeatCount + 1 < js_or (RoomItem.maxRepeats roomItem) 1)
         && bool_decide (Z.of_nat (length result') < count)
      then mkLoop (rest ++ [roomItem]) counts' result'
      else mkLoop rest counts' result'
  end.

(** The [while] loop, unrolled at most [fuel] times. *)
Fixpoint runLoop (randomizeRepeats : bool) (count : Z) (fuel : nat) (s : LoopState)
    : LoopState :=
  match fuel with
  | O => s
  | S fuel' =>
    if loopGuard count s
    then runLoop randomizeRepeats count fuel' (loopBody randomizeRepeats count s)
    else s
  end.

(** The number of passes through the body among the first [fuel]. *)
Fixpoint iterations (randomizeRepeats : bool) (count : Z) (fuel : nat) (s : LoopState)
    : nat :=
  match fuel with
  | O => O
  | S fuel' =>
    if loopGuard count s
    then S (iterations randomizeRepeats count fuel' (loopBody randomizeRepeats count s))
    else O
  end.

(** Each pass either shortens the pool or lengthens a result that is still
    below [count]; this many passes always reach the exit of the loop
    (lemma [runLoop_exits]). *)
Definition loopFuel (count : Z) (s : LoopState) : nat :=
  (length (itemPool s) + Z.to_nat (count - Z.of_nat (length (result s))))%nat.

Definition consumePool (randomizeRepeats : bool) (count : Z) (pool : list RoomItem.t)
    : LoopState :=
  let s0 := mkLoop pool ∅ [] in
  runLoop randomizeRepeats count (loopFuel count s0) s0.

(** ** The persistent backend *)

Module DatabaseStorage.
Section Draw.
Variable shuffle : forall A : Type, list A -> list A.

Definition getRandomRooms (allRooms : list Room.t) (count : Z) : list Room.t :=
    if decide (Z.of_nat (length allRooms) <= count)
    then allRooms
    else fst (pickRooms count (shuffle _ (weightedRooms allRooms)) [] ∅).

Definition getRandomRoomItemsWithDetails (room : option Room.t)
      (allRoomItems : list RoomItem.t) (count : Z) : outcome (list RoomItem.t) :=
    match room with
    | None => Throw
    | Some room =>
      if decide (Z.of_nat (length allRoomItems) <= count)
      then Ok allRoomItems
      else
        let itemPool := shuffle _ (buildItemPool allRoomItems) in
        Ok (result (consumePool (Room.randomizeRepeats room) count itemPool))
    end.
End Draw.
End DatabaseStorage.

(** ** The in-memory backend *)

Module MemStorage.
Section Draw.
Variable shuffle : forall A : Type, list A -> list A.

  (** The second for-of walk, over the catalog in its own order, entered
      when the first walk left fewer than [count] rooms. *)
Definition getRandomRooms (allRooms : list Room.t) (count : Z) : list Room.t :=
    let '(selectedRooms, selectedIds) :=
      pickRooms count (shuffle _ (weightedRooms allRooms)) [] ∅ in
    if decide (Z.of_nat (length selectedRooms) < count)
    then fst (pickRooms count allRooms selectedRooms selectedIds)
    else selectedRooms.

Definition getRandomRoomItemsWithDetails (room : option Room.t)
      (allRoomItems : list RoomItem.t) (count : Z) : outcome (list RoomItem.t) :=
    match room with
    | None => Throw
    | Some room =>
      let guaranteedItems := filter (fun item => RoomItem.isGuaranteed item = true) allRoomItems in
      let randomItems := filter (fun item => RoomItem.isGuaranteed item = false) allRoomItems in
      if decide (count <= Z.of_nat (length guaranteedItems))
      then Ok (slice0 guaranteedItems count)
      else
        let remainingCount := count - Z.of_nat (length guaranteedItems) in
        if decide (length randomItems = 0%nat \/ remainingCount <= 0)
        then Ok guaranteedItems
        else if decide (Z.of_nat (length randomItems) <= remainingCount)
        then Ok (guaranteedItems ++ randomItems)
        else
          let itemPool := shuffle _ (buildItemPool randomItems) in
          Ok (guaranteedItems
                ++ result (consumePool (Room.randomizeRepeats room) remainingCount itemPool))
    end.
End Draw.
End MemStorage.

(** ** Vocabulary of the properties *)

(** The one assumption on the random sort. *)
Definition permuting (shuffle : ∀ A : Type, list A → list A) : Prop :=
  ∀ (A : Type) (l : list A), shuffle A l ≡ₚ l.

(** Two outcomes the random sort may have: the pool as built and the pool
    reversed. *)
Definition keepOrder : ∀ A : Type, list A → list A := λ _ l, l.

Definition reverseOrder : ∀ A : Type, list A → list A := λ _ l, reverse l.

(** The number of distinct room ids of a catalog. *)
Definition distinctRooms (allRooms : list Room.t) : nat :=
  length (remove_dups (Room.id <$> allRooms)).

(** The number of entries of [l] equal to [x]. *)
Definition occurrences {A : Type} `{EqDecision A} (x : A) (l : list A) : nat :=
  length (filter (λ y, y = x) l).

(** The two repeat checks of the loop body compare the counter of the item
    with one bound: [maxRepeats || 1] for an assignment that may repeat, one
    for an assignment that may not (lemma [loopBody_pass]). *)
Definition repeatCap (a : RoomItem.t) : Z :=
  if RoomItem.canRepeat a then js_or (RoomItem.maxRepeats a) 1 else 1.

(** [selectedIds] holds the ids of [selectedRooms], none of them twice. *)
Definition tracked (sel : list Room.t) (ids : gset Z) : Prop :=
  (∀ i, i ∈ ids ↔ i ∈ Room.id <$> sel) ∧ NoDup (Room.id <$> sel).

(** What one pass does to a state whose pool starts with [x]: it drops [x]
    when the counter of its item has reached the cap (a skip); otherwise it
    appends [x] to the result, counts it, and maybe re-queues it. *)
Inductive pass (randomizeRepeats : bool) (count : Z) (s : LoopState)
    (x : RoomItem.t) (rest : list RoomItem.t) : LoopState → Prop :=
| pass_skip :
    repeatCap x ≤ default 0 (itemRepeatCounts s !! RoomItem.itemId x) →
    pass randomizeRepeats count s x rest (mkLoop rest (itemRepeatCounts s) (result s))
| pass_accept (requeue : list RoomItem.t) :
    let c := default 0 (itemRepeatCounts s !! RoomItem.itemId x) in
    c < repeatCap x →
    requeue = [] ∨
    (requeue = [x] ∧ randomizeRepeats = true ∧
     Z.of_nat (length (result s)) + 1 < count) →
    pass randomizeRepeats count s x rest
      (mkLoop (rest ++ requeue)
              (<[RoomItem.itemId x := c + 1]> (itemRepeatCounts s))
              (result s ++ [x])).

(** The counter of an item is the number of times the item is in the
    result. *)
Definition counted (s : LoopState) : Prop :=
  ∀ i, default 0 (itemRepeatCounts s !! i)
       = Z.of_nat (occurrences i (RoomItem.itemId <$> result s)).

(** No assignment is in the result more often than its cap allows, and the
    pool and the result hold entries of the initial pool only. *)
Definition capped (pool0 : list RoomItem.t) (s : LoopState) : Prop :=
  counted s ∧
  (∀ x, x ∈ itemPool s ∨ x ∈ result s → x ∈ pool0) ∧
  (∀ a, 0 ≤ repeatCap a → Z.of_nat (occurrences a (result s)) ≤ repeatCap a).

(** A bound on the passes still to come: a pass shortens the pool, or
    re-queues its entry and lengthens a result that stays below [count]. *)
Definition passesLeft (count : Z) (s : LoopState) : nat :=
  (length (itemPool s) + Z.to_nat (count - 1 - Z.of_nat (length (result s))))%nat.

(** ** Sample data *)

Definition hall : Room.t := Room.mk 1 2 2 true.
Definition vault : Room.t := Room.mk 2 1 2 false.
Definition attic : Room.t := Room.mk 3 3 2 true.
Definition cellar : Room.t := Room.mk 4 0 2 true.
Definition catalog : list Room.t := [hall; vault; attic].

(** Three assignments of three items. *)
Definition potion : RoomItem.t := RoomItem.mk 1 1 10 30 true 3 false.
Definition sword : RoomItem.t := RoomItem.mk 2 1 11 10 false 1 false.
Definition shield : RoomItem.t := RoomItem.mk 3 1 12 20 true 0 false.
Definition loot : list RoomItem.t := [potion; sword; shield].

(** Three assignments of one and the same item, the first repeatable. *)
Definition rune : RoomItem.t := RoomItem.mk 1 1 7 10 true 3 false.
Definition rune' : RoomItem.t := RoomItem.mk 2 1 7 10 false 1 false.
Definition rune'' : RoomItem.t := RoomItem.mk 3 1 7 10 false 1 false.
Definition runes : list RoomItem.t := [rune; rune'; rune''].

(** A guaranteed key and a plain coin. *)
Definition key : RoomItem.t := RoomItem.mk 1 1 1 10 false 1 true.
Definition coin : RoomItem.t := RoomItem.mk 2 1 2 100 false 1 false.

(** The lone assignment of the repeat scenario. *)
Definition item1 : RoomItem.t := RoomItem.mk 1 1 1 100 true 3 false.

(** ** Vocabulary of the further properties *)

(** The rooms that enter the weighted pool. *)
Definition weightedCandidates (allRooms : list Room.t) : list Room.t :=
  filter (λ room, 0 < Room.probability room) allRooms.

(** The loop has taken [k] entries off the pool it started with and has
    dealt with each of them: the item of each is in the result, which does
    not exceed [count]. *)
Definition consumed (count : Z) (pool0 : list RoomItem.t) (k : nat) (s : LoopState)
    : Prop :=
  (k ≤ length pool0)%nat ∧
  (∃ requeued, itemPool s = drop k pool0 ++ requeued) ∧
  counted s ∧
  (∀ x, x ∈ take k pool0 → RoomItem.itemId x ∈ RoomItem.itemId <$> result s) ∧
  Z.of_nat (length (result s)) ≤ Z.max count 0.

(** Without re-queueing, the pool is what is left of the initial pool and the
    result is drawn, in order, from what was taken off it. *)
Definition drawnInOrder (pool0 : list RoomItem.t) (s : LoopState) : Prop :=
  ∃ taken, pool0 = taken ++ itemPool s ∧ result s `sublist_of` taken.

(** ** JavaScript [Map]

    A [Map<number, V>] keeps its entries in insertion order, which
    [values()], [entries()] and so [find] observe: it is the list of its
    entries, a key at most once. *)

From stdpp Require Import strings.

Local Open Scope Z_scope.

Module JsMap.

Abbreviation t V := (list (Z * V)).

(** [map.get(k)] *)
Fixpoint get {V : Type} (m : t V) (k : Z) : option V :=
  match m with
  | [] => None
  | (k', v) :: m' => if decide (k' = k) then Some v else get m' k
  end.

(** [map.has(k)] *)
Definition has {V : Type} (m : t V) (k : Z) : bool :=
  match get m k with Some _ => true | None => false end.

(** [map.set(k, v)]: an existing key keeps its place, a new key goes last. *)
Fixpoint set {V : Type} (m : t V) (k : Z) (v : V) : t V :=
  match m with
  | [] => [(k, v)]
  | (k', v') :: m' => if decide (k' = k) then (k, v) :: m' else (k', v') :: set m' k v
  end.

(** The map after [map.delete(k)]; the call returns [has m k]. *)
Definition delete {V : Type} (m : t V) (k : Z) : t V :=
  filter (λ e, e.1 ≠ k) m.

Definition keys {V : Type} (m : t V) : list Z := m.*1.

Definition values {V : Type} (m : t V) : list V := m.*2.

Definition size {V : Type} (m : t V) : nat := length m.

(** What every [Map] satisfies: no key twice. *)
Definition wf {V : Type} (m : t V) : Prop := NoDup (keys m).

End JsMap.

(** ** Color themes (shared/schema.ts) *)

Module ColorTheme.
Record t : Type := mk
  { id : Z;
    name : string;
    description : string;
    primaryColor : string;
    secondaryColor : string;
    accentColor : string;
    backgroundColor : string;
    textColor : string;
    isDefault : bool }.

Definition withDefault (theme : t) (b : bool) : t :=
  mk (id theme) (name theme) (description theme) (primaryColor theme)
     (secondaryColor theme) (accentColor theme) (backgroundColor theme)
     (textColor theme) b.
End ColorTheme.

(** [InsertColorTheme]: no [id], and [isDefault] may be left out. *)
Module InsertColorTheme.
Record t : Type := mk
  { name : string;
    description : string;
    primaryColor : string;
    secondaryColor : string;
    accentColor : string;
    backgroundColor : string;
    textColor : string;
    isDefault : option bool }.
End InsertColorTheme.

(** [Partial<InsertColorTheme>]: every field may be left out. *)
Module ColorThemeUpdate.
Record t : Type := mk
  { name : option string;
    description : option string;
    primaryColor : option string;
    secondaryColor : option string;
    accentColor : option string;
    backgroundColor : option string;
    textColor : option string;
    isDefault : option bool }.

(** [{ ...theme, ...themeUpdate }] *)
Definition apply (theme : ColorTheme.t) (themeUpdate : t) : ColorTheme.t :=
  ColorTheme.mk (ColorTheme.id theme)
    (default (ColorTheme.name theme) (name themeUpdate))
    (default (ColorTheme.description theme) (description themeUpdate))
    (default (ColorTheme.primaryColor theme) (primaryColor themeUpdate))
    (default (ColorTheme.secondaryColor theme) (secondaryColor themeUpdate))
    (default (ColorTheme.accentColor theme) (accentColor themeUpdate))
    (default (ColorTheme.backgroundColor theme) (backgroundColor themeUpdate))
    (default (ColorTheme.textColor theme) (textColor themeUpdate))
    (default (ColorTheme.isDefault theme) (isDefault themeUpdate)).
End ColorThemeUpdate.

(** ** The color theme store (storage.colorthemes)

    Each function takes the map it mutates and returns the map it leaves,
    beside its result. *)

Module ColorThemeStorage.

Definition getColorThemes (colorThemes : JsMap.t ColorTheme.t) : list ColorTheme.t :=
  JsMap.values colorThemes.

Definition getColorThemeById (colorThemes : JsMap.t ColorTheme.t) (id : Z)
    : option ColorTheme.t :=
  JsMap.get colorThemes id.

(** [Array.from(colorThemes.values()).find(theme => theme.isDefault)] *)
Definition getDefaultColorTheme (colorThemes : JsMap.t ColorTheme.t)
    : option ColorTheme.t :=
  List.find ColorTheme.isDefault (JsMap.values colorThemes).

(** [Array.from(colorThemes.entries()).forEach(([themeId, existingTheme]) =>
    { if (touch(themeId) && existingTheme.isDefault)
        colorThemes.set(themeId, { ...existingTheme, isDefault: false }) })]:
    the loop that [createColorTheme] and [setDefaultColorTheme] run over all
    themes and [updateColorTheme] over all themes but one. *)
Definition clearDefaults (touch : Z → bool) (colorThemes : JsMap.t ColorTheme.t)
    : JsMap.t ColorTheme.t :=
  foldl (λ acc '(themeId, existingTheme),
           if touch themeId && ColorTheme.isDefault existingTheme
           then JsMap.set acc themeId (ColorTheme.withDefault existingTheme false)
           else acc)
        colorThemes colorThemes.

Definition createColorTheme (colorThemes : JsMap.t ColorTheme.t)
    (theme : InsertColorTheme.t) (colorThemeId : Z)
    : JsMap.t ColorTheme.t * ColorTheme.t :=
  let id := colorThemeId in
  let newTheme :=
    ColorTheme.mk id (InsertColorTheme.name theme) (InsertColorTheme.description theme)
      (InsertColorTheme.primaryColor theme) (InsertColorTheme.secondaryColor theme)
      (InsertColorTheme.accentColor theme) (InsertColorTheme.backgroundColor theme)
      (InsertColorTheme.textColor theme)
      (default false (InsertColorTheme.isDefault theme)) in
  let '(colorThemes, newTheme) :=
    if bool_decide (JsMap.size colorThemes = 0%nat) || ColorTheme.isDefault newTheme
    then
      let colorThemes :=
        if ColorTheme.isDefault newTheme
        then clearDefaults (λ _, true) colorThemes
        else colorThemes in
      let newTheme :=
        if bool_decide (JsMap.size colorThemes = 0%nat)
           && negb (ColorTheme.isDefault newTheme)
        then ColorTheme.withDefault newTheme true
        else newTheme in
      (colorThemes, newTheme)
    else (colorThemes, newTheme) in
  (JsMap.set colorThemes id newTheme, newTheme).

Definition updateColorTheme (colorThemes : JsMap.t ColorTheme.t) (id : Z)
    (themeUpdate : ColorThemeUpdate.t)
    : JsMap.t ColorTheme.t * option ColorTheme.t :=
  match JsMap.get colorThemes id with
  | None => (colorThemes, None)
  | Some theme =>
    let updatedTheme := ColorThemeUpdate.apply theme themeUpdate in
    let colorThemes :=
      if default false (ColorThemeUpdate.isDefault themeUpdate)
         && negb (bool_decide (ColorThemeUpdate.isDefault themeUpdate
                               = Some (ColorTheme.isDefault theme)))
      then clearDefaults (λ themeId, negb (bool_decide (themeId = id))) colorThemes
      else colorThemes in
    (JsMap.set colorThemes id updatedTheme, Some updatedTheme)
  end.

(** [Throw] is the rejected promise "Cannot delete the default color
    theme". *)
Definition deleteColorTheme (colorThemes : JsMap.t ColorTheme.t) (id : Z)
    : JsMap.t ColorTheme.t * outcome bool :=
  match JsMap.get colorThemes id with
  | None => (colorThemes, Ok false)
  | Some theme =>
    if ColorTheme.isDefault theme
    then (colorThemes, Throw)
    else (JsMap.delete colorThemes id, Ok (JsMap.has colorThemes id))
  end.

Definition setDefaultColorTheme (colorThemes : JsMap.t ColorTheme.t) (id : Z)
    : JsMap.t ColorTheme.t * option ColorTheme.t :=
  match JsMap.get colorThemes id with
  | None => (colorThemes, None)
  | Some theme =>
    let colorThemes := clearDefaults (λ _, true) colorThemes in
    let updatedTheme := ColorTheme.withDefault theme true in
    (JsMap.set colorThemes id updatedTheme, Some updatedTheme)
  end.

(** The three sample themes, "Dark Mode" the default one. *)
Definition themesData : list InsertColorTheme.t :=
  [ InsertColorTheme.mk "Dark Mode" "Dark theme with blue accents"
      "#3B82F6" "#1E40AF" "#F59E0B" "#1F2937" "#F9FAFB" (Some true);
    InsertColorTheme.mk "Light Mode" "Light theme with purple accents"
      "#8B5CF6" "#6D28D9" "#10B981" "#F9FAFB" "#111827" (Some false);
    InsertColorTheme.mk "Sunset" "Warm oranges and reds"
      "#F97316" "#C2410C" "#EF4444" "#FFFBEB" "#7C2D12" (Some false) ].

(** [themesData.forEach(themeData => { const id = nextId++; ...;
    colorThemes.set(id, theme) }); return nextId] *)
Definition initializeColorThemes (colorThemes : JsMap.t ColorTheme.t) (colorThemeId : Z)
    : JsMap.t ColorTheme.t * Z :=
  foldl (λ '(colorThemes, nextId) themeData,
           let id := nextId in
           let theme :=
             ColorTheme.mk id (InsertColorTheme.name themeData)
               (InsertColorTheme.description themeData)
               (InsertColorTheme.primaryColor themeData)
               (InsertColorTheme.secondaryColor themeData)
               (InsertColorTheme.accentColor themeData)
               (InsertColorTheme.backgroundColor themeData)
               (InsertColorTheme.textColor themeData)
               (default false (InsertColorTheme.isDefault themeData)) in
           (JsMap.set colorThemes id theme, nextId + 1))
        (colorThemes, colorThemeId) themesData.

End ColorThemeStorage.

(** ** The color themes of the in-memory backend

    The [colorThemes] map and the [colorThemeId] counter of [MemStorage],
    and the methods that hand them to the color theme store. *)

Module MemThemes.

Record t : Type := mk
  { colorThemes : JsMap.t ColorTheme.t;
    colorThemeId : Z }.

(** The constructor: an empty map, the counter at one, then
    [initColorThemes]. *)
Definition constructor : t :=
  let '(colorThemes, nextId) := ColorThemeStorage.initializeColorThemes [] 1 in
  mk colorThemes nextId.

Definition getColorThemeById (st : t) (id : Z) : option ColorTheme.t :=
  ColorThemeStorage.getColorThemeById (colorThemes st) id.

Definition getDefaultColorTheme (st : t) : option ColorTheme.t :=
  ColorThemeStorage.getDefaultColorTheme (colorThemes st).

(** [createColorTheme]: the store is called with the counter, which is
    then incremented. *)
Definition createColorTheme (st : t) (theme : InsertColorTheme.t) : t * ColorTheme.t :=
  let '(colorThemes, newTheme) :=
    ColorThemeStorage.createColorTheme (colorThemes st) theme (colorThemeId st) in
  (mk colorThemes (colorThemeId st + 1), newTheme).

Definition updateColorTheme (st : t) (id : Z) (theme : ColorThemeUpdate.t)
    : t * option ColorTheme.t :=
  let '(colorThemes, updated) :=
    ColorThemeStorage.updateColorTheme (colorThemes st) id theme in
  (mk colorThemes (colorThemeId st), updated).

Definition deleteColorTheme (st : t) (id : Z) : t * outcome bool :=
  let '(colorThemes, deleted) := ColorThemeStorage.deleteColorTheme (colorThemes st) id in
  (mk colorThemes (colorThemeId st), deleted).

Definition setDefaultColorTheme (st : t) (id : Z) : t * option ColorTheme.t :=
  let '(colorThemes, updated) := ColorThemeStorage.setDefaultColorTheme (colorThemes st) id in
  (mk colorThemes (colorThemeId st), updated).

(** A call of one of the four mutating methods. *)
Inductive call : Type :=
| Create (theme : InsertColorTheme.t)
| Update (id : Z) (theme : ColorThemeUpdate.t)
| Delete (id : Z)
| SetDefault (id : Z).

(** The store a call leaves. *)
Definition after (st : t) (c : call) : t :=
  match c with
  | Create theme => (createColorTheme st theme).1
  | Update id theme => (updateColorTheme st id theme).1
  | Delete id => (deleteColorTheme st id).1
  | SetDefault id => (setDefaultColorTheme st id).1
  end.



End MemThemes.


(** What the loop over the entries makes of one theme. *)
Definition clearedTheme (touch : Z → bool) (themeId : Z) (theme : ColorTheme.t)
    : ColorTheme.t :=
  if touch themeId && ColorTheme.isDefault theme
  then ColorTheme.withDefault theme false
  else theme.



(** ** Items and assignments (shared/schema.ts) *)

Module Item.
Record t : Type := mk
  { id : Z;
    name : string;
    description : option string;
    imageUrl : string;
    rarity : string }.
End Item.

(** [InsertItem]: no [id]; a missing [description] becomes [null]. *)
Module InsertItem.
Record t : Type := mk
  { name : string;
    description : option string;
    imageUrl : string;
    rarity : string }.
End InsertItem.

(** [InsertRoomItem]: no [id]; the columns with a default may be left out. *)
Module InsertRoomItem.
Record t : Type := mk
  { roomId : Z;
    itemId : Z;
    probability : option Z;
    canRepeat : option bool;
    maxRepeats : option Z;
    isGuaranteed : option bool }.
End InsertRoomItem.

(** [Partial<InsertRoomItem>]: every field may be left out. *)
Module RoomItemUpdate.
Record t : Type := mk
  { roomId : option Z;
    itemId : option Z;
    probability : option Z;
    canRepeat : option bool;
    maxRepeats : option Z;
    isGuaranteed : option bool }.

(** [{ ...item, ...itemUpdate }] *)
Definition apply (item : RoomItem.t) (itemUpdate : t) : RoomItem.t :=
  RoomItem.mk (RoomItem.id item)
    (default (RoomItem.roomId item) (roomId itemUpdate))
    (default (RoomItem.itemId item) (itemId itemUpdate))
    (default (RoomItem.probability item) (probability itemUpdate))
    (default (RoomItem.canRepeat item) (canRepeat itemUpdate))
    (default (RoomItem.maxRepeats item) (maxRepeats itemUpdate))
    (default (RoomItem.isGuaranteed item) (isGuaranteed itemUpdate)).
End RoomItemUpdate.

(** The [properties] argument of the assignment methods. *)
Module AssignmentProperties.
Record t : Type := mk
  { probability : option Z;
    canRepeat : option bool;
    maxRepeats : option Z;
    isGuaranteed : option bool }.

(** The properties read as a [Partial<InsertRoomItem>]. *)
Definition asUpdate (properties : t) : RoomItemUpdate.t :=
  RoomItemUpdate.mk None None (probability properties) (canRepeat properties)
    (maxRepeats properties) (isGuaranteed properties).
End AssignmentProperties.

(** ** The rooms, items and assignments of the in-memory backend

    The three maps of [MemStorage] and their id counters; each method
    returns the store it leaves beside its result. *)

Module MemStore.

Record t : Type := mk
  { rooms : JsMap.t Room.t;
    items : JsMap.t Item.t;
    roomItems : JsMap.t RoomItem.t;
    roomId : Z;
    itemId : Z;
    roomItemId : Z }.

Definition withRoomItems (st : t) (roomItems : JsMap.t RoomItem.t) : t :=
  mk (rooms st) (items st) roomItems (roomId st) (itemId st) (roomItemId st).

Definition getRooms (st : t) : list Room.t := JsMap.values (rooms st).

Definition getRoomById (st : t) (id : Z) : option Room.t := JsMap.get (rooms st) id.

Definition getItemById (st : t) (id : Z) : option Item.t := JsMap.get (items st) id.

Definition getRoomItems (st : t) (roomId : Z) : list RoomItem.t :=
  filter (λ item, RoomItem.roomId item = roomId) (JsMap.values (roomItems st)).

(** The assignments of the room whose item is stored; the item joined to
    each is left out, as in [RoomItem.t]. *)
Definition getRoomItemsWithDetails (st : t) (roomId : Z) : list RoomItem.t :=
  filter (λ roomItem, is_Some (JsMap.get (items st) (RoomItem.itemId roomItem)))
         (getRoomItems st roomId).

Definition getGuaranteedRoomItemsWithDetails (st : t) (roomId : Z) : list RoomItem.t :=
  filter (λ item, RoomItem.isGuaranteed item = true) (getRoomItemsWithDetails st roomId).

Definition createRoomItem (st : t) (item : InsertRoomItem.t) : t * RoomItem.t :=
  let id := roomItemId st in
  let newItem :=
    RoomItem.mk id (InsertRoomItem.roomId item) (InsertRoomItem.itemId item)
      (js_or (default 0 (InsertRoomItem.probability item)) 100)
      (default true (InsertRoomItem.canRepeat item))
      (default 1 (InsertRoomItem.maxRepeats item))
      (default false (InsertRoomItem.isGuaranteed item)) in
  (mk (rooms st) (items st) (JsMap.set (roomItems st) id newItem)
      (roomId st) (itemId st) (roomItemId st + 1),
   newItem).

Definition updateRoomItem (st : t) (id : Z) (itemUpdate : RoomItemUpdate.t)
    : t * option RoomItem.t :=
  match JsMap.get (roomItems st) id with
  | None => (st, None)
  | Some item =>
    let updatedItem := RoomItemUpdate.apply item itemUpdate in
    (withRoomItems st (JsMap.set (roomItems st) id updatedItem), Some updatedItem)
  end.

Definition deleteRoomItem (st : t) (id : Z) : t * bool :=
  (withRoomItems st (JsMap.delete (roomItems st) id), JsMap.has (roomItems st) id).

Definition createItem (st : t) (item : InsertItem.t) : t * Item.t :=
  let id := itemId st in
  let newItem :=
    Item.mk id (InsertItem.name item) (InsertItem.description item)
      (InsertItem.imageUrl item) (InsertItem.rarity item) in
  (mk (rooms st) (JsMap.set (items st) id newItem) (roomItems st)
      (roomId st) (itemId st + 1) (roomItemId st),
   newItem).

(** [for (const assignmentId of assignments) this.roomItems.delete(assignmentId)],
    [assignments] being the ids of the assignments that [selected] picks. *)
Definition deleteAssignments (selected : RoomItem.t → bool)
    (roomItems : JsMap.t RoomItem.t) : JsMap.t RoomItem.t :=
  let assignments := RoomItem.id <$> filter (λ roomItem, selected roomItem = true)
                                            (JsMap.values roomItems) in
  foldl JsMap.delete roomItems assignments.

Definition deleteItem (st : t) (id : Z) : t * bool :=
  if negb (JsMap.has (items st) id)
  then (st, false)
  else
    (mk (rooms st) (JsMap.delete (items st) id)
        (deleteAssignments (λ roomItem, bool_decide (RoomItem.itemId roomItem = id))
                           (roomItems st))
        (roomId st) (itemId st) (roomItemId st),
     true).

Definition deleteRoom (st : t) (id : Z) : t * bool :=
  if negb (JsMap.has (rooms st) id)
  then (st, false)
  else
    (mk (JsMap.delete (rooms st) id) (items st)
        (deleteAssignments (λ item, bool_decide (RoomItem.roomId item = id))
                           (roomItems st))
        (roomId st) (itemId st) (roomItemId st),
     true).

(** [Throw] is "Room or item not found". *)
Definition assignItemToRoom (st : t) (roomId itemId : Z)
    (properties : AssignmentProperties.t) : t * outcome RoomItem.t :=
  match getRoomById st roomId, getItemById st itemId with
  | Some _, Some _ =>
    let assignment :=
      InsertRoomItem.mk roomId itemId
        (Some (default 100 (AssignmentProperties.probability properties)))
        (Some (default true (AssignmentProperties.canRepeat properties)))
        (Some (default 1 (AssignmentProperties.maxRepeats properties)))
        (Some (default false (AssignmentProperties.isGuaranteed properties))) in
    let '(st, newItem) := createRoomItem st assignment in
    (st, Ok newItem)
  | _, _ => (st, Throw)
  end.

Definition updateRoomItemAssignment (st : t) (id : Z)
    (properties : AssignmentProperties.t) : t * option RoomItem.t :=
  updateRoomItem st id (AssignmentProperties.asUpdate properties).

Definition removeItemFromRoom (st : t) (roomItemId : Z) : t * bool :=
  deleteRoomItem st roomItemId.

(** The two draws of [MemStorage] on the store: the queries that
    [MemStorage.getRandomRooms] and
    [MemStorage.getRandomRoomItemsWithDetails] take as arguments are made
    here. *)
Definition getRandomRooms (shuffle : ∀ A : Type, list A → list A) (st : t) (count : Z)
    : list Room.t :=
  MemStorage.getRandomRooms shuffle (getRooms st) count.

Definition getRandomRoomItemsWithDetails (shuffle : ∀ A : Type, list A → list A)
    (st : t) (roomId count : Z) : outcome (list RoomItem.t) :=
  MemStorage.getRandomRoomItemsWithDetails shuffle (getRoomById st roomId)
    (getRoomItemsWithDetails st roomId) count.

(** A call of one of the mutating methods. *)
Inductive call : Type :=
| CreateRoomItem (item : InsertRoomItem.t)
| UpdateRoomItem (id : Z) (itemUpdate : RoomItemUpdate.t)
| DeleteRoomItem (id : Z)
| CreateItem (item : InsertItem.t)
| DeleteItem (id : Z)
| DeleteRoom (id : Z)
| AssignItemToRoom (roomId itemId : Z) (properties : AssignmentProperties.t)
| UpdateRoomItemAssignment (id : Z) (properties : AssignmentProperties.t)
| RemoveItemFromRoom (roomItemId : Z).

(** The store a call leaves. *)
Definition after (st : t) (c : call) : t :=
  match c with
  | CreateRoomItem item => (createRoomItem st item).1
  | UpdateRoomItem id itemUpdate => (updateRoomItem st id itemUpdate).1
  | DeleteRoomItem id => (deleteRoomItem st id).1
  | CreateItem item => (createItem st item).1
  | DeleteItem id => (deleteItem st id).1
  | DeleteRoom id => (deleteRoom st id).1
  | AssignItemToRoom roomId itemId properties =>
    (assignItemToRoom st roomId itemId properties).1
  | UpdateRoomItemAssignment id properties =>
    (updateRoomItemAssignment st id properties).1
  | RemoveItemFromRoom roomItemId => (removeItemFromRoom st roomItemId).1
  end.

End MemStore.

(** What the assignment methods keep: every assignment is stored once,
    under its own id, below the counter. *)
Definition assignmentsKept (st : MemStore.t) : Prop :=
  JsMap.wf (MemStore.roomItems st) ∧
  ∀ k v, (k, v) ∈ MemStore.roomItems st →
         RoomItem.id v = k ∧ k < MemStore.roomItemId st.

(** ** A sample store *)

Definition sampleItems : JsMap.t Item.t :=
  [ (10, Item.mk 10 "Golden Chalice" None "/chalice.png" "Rare");
    (11, Item.mk 11 "Trident" (Some "Three prongs") "/trident.png" "Common");
    (12, Item.mk 12 "Fairy Dust" None "/dust.png" "Common") ].

Definition sampleStore : MemStore.t :=
  MemStore.mk [(1, hall); (2, vault)] sampleItems
    [(1, potion); (2, sword); (3, shield); (4, RoomItem.mk 4 2 10 50 true 1 false)]
    3 13 5.

(** ** The two draw routes (routes.ts)

    [GET /api/rooms/random] and [GET /api/rooms/:id/random-items] over the
    persistent backend. For the first route the query is an argument, as
    for the draws; [parsed] is what [parseInt] makes of the [count]
    parameter, [None] for [NaN]. The second route awaits two storage
    methods inside one [try]: each is a function to an [outcome], [Throw]
    for a rejected promise, and [roomId] is what [parseInt] makes of the
    [:id] parameter, [None] for [NaN]. *)

Inductive response (A : Type) : Type :=
| Json (body : A)
| NotFound
| ServerError.
Arguments Json {A} body.
Arguments NotFound {A}.
Arguments ServerError {A}.

Module Routes.
Section Handlers.
Variable shuffle : forall A : Type, list A -> list A.

(** [parseInt(req.query.count as string) || 3] *)
Definition randomRoomsCount (parsed : option Z) : Z := js_or (default 0 parsed) 3.

Definition randomRooms (parsed : option Z) (allRooms : list Room.t)
    : response (list Room.t) :=
  Json (DatabaseStorage.getRandomRooms shuffle allRooms (randomRoomsCount parsed)).
End Handlers.

Section RandomItems.
(** [storage.getRoomById] and [storage.getRandomRoomItemsWithDetails], each
    with what awaiting it gives. *)
Variable getRoomById : option Z -> outcome (option Room.t).
Variable getRandomRoomItemsWithDetails : option Z -> Z -> outcome (list RoomItem.t).

(** [itemsToShow] is read off the room ([items_to_show] is not nullable).
    Both awaits stand in the [try] block: a rejected lookup and a rejected
    draw are caught alike and answered with status 500. *)
Definition randomItems (roomId : option Z) : response (list RoomItem.t) :=
  match getRoomById roomId with
  | Throw => ServerError
  | Ok None => NotFound
  | Ok (Some room) =>
    let itemsToShow := Room.itemsToShow room in
    if decide (0 < itemsToShow)
    then
      match getRandomRoomItemsWithDetails roomId itemsToShow with
      | Ok randomItems => Json randomItems
      | Throw => ServerError
      end
    else Json []
  end.
End RandomItems.

Section Drafter.
Variable shuffle : forall A : Type, list A -> list A.

(** [DatabaseStorage.getRandomRoomItemsWithDetails] as the route awaits it.
    The method runs two queries of its own, [this.getRoomById(roomId)] and
    [this.getRoomItemsWithDetails(roomId)], after the route's lookup: [room]
    and [allRoomItems] are what they give, [Throw] for a rejected query,
    which rejects the method. The second query is not reached when the
    first finds no room; the method has thrown by then. *)
Definition drafter (room : outcome (option Room.t))
    (allRoomItems : outcome (list RoomItem.t)) (roomId : option Z) (count : Z)
    : outcome (list RoomItem.t) :=
  match room with
  | Throw => Throw
  | Ok None => Throw
  | Ok (Some room) =>
    match allRoomItems with
    | Throw => Throw
    | Ok allRoomItems =>
      DatabaseStorage.getRandomRoomItemsWithDetails shuffle (Some room) allRoomItems count
    end
  end.
End Drafter.
End Routes.

(** * Properties *)

(** ** The walk over rooms *)

Lemma pickRooms_extends count l sel ids :
  ∃ ext, fst (pickRooms count l sel ids) = sel ++ ext ∧ ∀ r, r ∈ ext → r ∈ l.
Proof.
  revert sel ids. induction l as [|room rest IH]; intros sel ids; simpl.
  - exists []. rewrite app_nil_r. split; [done | intros r Hr; inversion Hr].
  - destruct (decide (Room.id room ∈ ids)).
    + destruct (IH sel ids) as (ext & -> & Hext). exists ext.
      split; [done | intros r Hr; right; auto].
    + destruct (decide (Z.of_nat (length (sel ++ [room])) = count)); simpl.
      * exists [room]. split; [done |]. intros r Hr.
        apply list_elem_of_singleton in Hr as ->. left.
      * destruct (IH (sel ++ [room]) (ids ∪ {[Room.id room]})) as (ext & -> & Hext).
        exists (room :: ext). rewrite <- app_assoc. split; [done |].
        intros r [-> | Hr]%elem_of_cons; [left | right; auto].
Qed.


Lemma tracked_nil : tracked [] ∅.
Proof.
  split; [| constructor]. intros i. split; intros Hi; [| inversion Hi].
  by apply not_elem_of_empty in Hi.
Qed.

Lemma tracked_snoc sel ids room :
  tracked sel ids → Room.id room ∉ ids →
  tracked (sel ++ [room]) (ids ∪ {[Room.id room]}).
Proof.
  intros [Hids Hnd] Hfresh. split.
  - intros i. rewrite fmap_app, elem_of_app, elem_of_union, Hids. simpl.
    rewrite elem_of_singleton, list_elem_of_singleton. done.
  - rewrite fmap_app. apply NoDup_app. split; [done |]. split.
    + intros i Hi Hi'. simpl in Hi'. apply list_elem_of_singleton in Hi' as ->.
      apply Hfresh, Hids, Hi.
    + simpl. apply NoDup_singleton.
Qed.

Lemma pickRooms_tracked count l sel ids :
  tracked sel ids →
  tracked (fst (pickRooms count l sel ids)) (snd (pickRooms count l sel ids)).
Proof.
  revert sel ids. induction l as [|room rest IH]; intros sel ids Ht; simpl; [done |].
  destruct (decide (Room.id room ∈ ids)); [by apply IH |].
  destruct (decide (Z.of_nat (length (sel ++ [room])) = count)); simpl.
  - by apply tracked_snoc.
  - by apply IH, tracked_snoc.
Qed.

(** The walk stops at [count] rooms when it starts below [count]; if it ends
    below [count], it has seen the id of every room it walked over. *)
Lemma pickRooms_length count l sel ids :
  Z.of_nat (length sel) < count →
  Z.of_nat (length (fst (pickRooms count l sel ids))) ≤ count ∧
  (Z.of_nat (length (fst (pickRooms count l sel ids))) < count →
   ids ⊆ snd (pickRooms count l sel ids) ∧
   ∀ r, r ∈ l → Room.id r ∈ snd (pickRooms count l sel ids)).
Proof.
  revert sel ids. induction l as [|room rest IH]; intros sel ids Hlt; simpl.
  - split; [lia |]. intros _. split; [done |]. intros r Hr. inversion Hr.
  - destruct (decide (Room.id room ∈ ids)) as [Hin | Hnin].
    + destruct (IH sel ids Hlt) as [Hle Hall]. split; [done |].
      intros Hlt'. destruct (Hall Hlt') as [Hsub Hseen]. split; [done |].
      intros r [-> | Hr]%elem_of_cons; [by apply Hsub | by apply Hseen].
    + destruct (decide (Z.of_nat (length (sel ++ [room])) = count)) as [Heq | Hne]; simpl.
      * split; [lia | lia].
      * assert (Z.of_nat (length (sel ++ [room])) < count) as Hlt'.
        { rewrite length_app in *. simpl in *. lia. }
        destruct (IH (sel ++ [room]) (ids ∪ {[Room.id room]}) Hlt') as [Hle Hall].
        split; [done |]. intros Hlt''. destruct (Hall Hlt'') as [Hsub Hseen].
        split; [intros i Hi; apply Hsub, elem_of_union; by left |].
        intros r [-> | Hr]%elem_of_cons; [| by apply Hseen].
        apply Hsub, elem_of_union. right. by apply elem_of_singleton.
Qed.

(** With a [count] that no length can equal, the walk never breaks. *)
Lemma pickRooms_nonpositive count l :
  count ≤ 0 → (fst (pickRooms count l [] ∅) = [] ↔ l = []).
Proof.
  intros Hc. destruct l as [|room rest]; [done |].
  cbn [pickRooms]. rewrite decide_False by apply not_elem_of_empty.
  rewrite decide_False by (rewrite length_app; simpl; lia).
  destruct (pickRooms_extends count rest ([] ++ [room]) (∅ ∪ {[Room.id room]}))
    as (ext & -> & _).
  done.
Qed.

Lemma elem_of_weightedRooms r allRooms :
  r ∈ weightedRooms allRooms ↔ r ∈ allRooms ∧ 0 < Room.probability r.
Proof.
  unfold weightedRooms. rewrite list_elem_of_bind. split.
  - intros (y & Hy & Hin). apply elem_of_replicate in Hy as [-> Hn]. split; [done | lia].
  - intros [Hin Hp]. exists r. split; [| done]. apply elem_of_replicate. split; [done | lia].
Qed.

Lemma weightedRooms_nil allRooms :
  weightedRooms allRooms = [] ↔ ∀ r, r ∈ allRooms → Room.probability r ≤ 0.
Proof.
  split.
  - intros Hnil r Hr. destruct (decide (Room.probability r ≤ 0)) as [|Hp]; [done |].
    assert (r ∈ weightedRooms allRooms) as Hin by (apply elem_of_weightedRooms; split; [done | lia]).
    rewrite Hnil in Hin. inversion Hin.
  - intros Hall. destruct (weightedRooms allRooms) as [|r l] eqn:E; [done |].
    assert (r ∈ weightedRooms allRooms) as Hin by (rewrite E; left).
    apply elem_of_weightedRooms in Hin as [Hin Hp]. apply Hall in Hin. lia.
Qed.

(** ** The pool-consumption loop *)

Lemma js_or_0_r x : js_or x 0 = x.
Proof. unfold js_or. case_decide; lia. Qed.



Lemma occurrences_snoc {A : Type} `{EqDecision A} (x y : A) (l : list A) :
  occurrences x (l ++ [y]) = (occurrences x l + if decide (y = x) then 1 else 0)%nat.
Proof.
  unfold occurrences. rewrite filter_app, length_app. f_equal.
  destruct (decide (y = x)) as [Heq | Hne].
  - by rewrite filter_cons_True.
  - by rewrite filter_cons_False.
Qed.

Lemma occurrences_pos {A : Type} `{EqDecision A} (x : A) (l : list A) :
  (0 < occurrences x l)%nat ↔ x ∈ l.
Proof.
  unfold occurrences. induction l as [|y l IH].
  - simpl. split; [lia | intros Hx; inversion Hx].
  - destruct (decide (y = x)) as [-> | Hne].
    + rewrite filter_cons_True by done. simpl. split; [intros _; left | lia].
    + rewrite filter_cons_False by done. rewrite IH, elem_of_cons.
      split; [by right | by intros [-> | Hx]].
Qed.


Lemma pass_accept_plain randomizeRepeats count s x rest :
  let c := default 0 (itemRepeatCounts s !! RoomItem.itemId x) in
  c < repeatCap x →
  pass randomizeRepeats count s x rest
    (mkLoop rest (<[RoomItem.itemId x := c + 1]> (itemRepeatCounts s)) (result s ++ [x])).
Proof.
  intros c Hc.
  pose proof (pass_accept randomizeRepeats count s x rest [] Hc (or_introl eq_refl)) as H.
  by rewrite app_nil_r in H.
Qed.

Lemma loopBody_pass randomizeRepeats count s x rest :
  itemPool s = x :: rest →
  pass randomizeRepeats count s x rest (loopBody randomizeRepeats count s).
Proof.
  intros Hpool. unfold loopBody. rewrite Hpool, js_or_0_r.
  destruct (RoomItem.canRepeat x) eqn:Hrep; simpl.
  - assert (repeatCap x = js_or (RoomItem.maxRepeats x) 1) as Hcap'.
    { unfold repeatCap. by rewrite Hrep. }
    case_bool_decide as Hcap; [apply pass_skip; lia |].
    destruct randomizeRepeats; simpl; [| apply pass_accept_plain; lia].
    repeat case_bool_decide; simpl; try (apply pass_accept_plain; lia).
    apply (pass_accept _ _ _ _ _ [x]); [lia |].
    right. rewrite length_app in *. simpl in *. split; [done |]. split; [done | lia].
  - assert (repeatCap x = 1) as Hcap'.
    { unfold repeatCap. by rewrite Hrep. }
    case_bool_decide as Hpos; [apply pass_skip; lia |].
    rewrite andb_false_r. simpl. apply pass_accept_plain. lia.
Qed.

Lemma loopGuard_true count s :
  loopGuard count s = true →
  Z.of_nat (length (result s)) < count ∧ ∃ x rest, itemPool s = x :: rest.
Proof.
  unfold loopGuard. intros [H1 H2]%andb_true_iff.
  apply bool_decide_eq_true in H1, H2. split; [done |].
  destruct (itemPool s) as [|x rest]; [simpl in H2; lia | eauto].
Qed.

(** A property kept by every pass holds when the loop stops. *)
Lemma runLoop_invariant (P : LoopState → Prop) randomizeRepeats count :
  (∀ s, P s → loopGuard count s = true → P (loopBody randomizeRepeats count s)) →
  ∀ fuel s, P s → P (runLoop randomizeRepeats count fuel s).
Proof.
  intros Hstep fuel. induction fuel as [|fuel IH]; intros s Hs; simpl; [done |].
  destruct (loopGuard count s) eqn:Hg; [| done]. apply IH, Hstep; done.
Qed.


Lemma passesLeft_decreases randomizeRepeats count s :
  loopGuard count s = true →
  (passesLeft count (loopBody randomizeRepeats count s) < passesLeft count s)%nat.
Proof.
  intros [Hlt (x & rest & Hpool)]%loopGuard_true.
  destruct (loopBody_pass randomizeRepeats count s x rest Hpool) as [Hskip | requeue c Hacc Hre];
    unfold passesLeft; rewrite Hpool; simpl.
  - lia.
  - rewrite !length_app. simpl. destruct Hre as [-> | (-> & _ & Hroom)]; simpl; lia.
Qed.

Lemma passesLeft_le_loopFuel count s : (passesLeft count s ≤ loopFuel count s)%nat.
Proof. unfold passesLeft, loopFuel. lia. Qed.

(** The loop is left through its guard, not for lack of fuel. *)
Lemma runLoop_exits randomizeRepeats count fuel s :
  (passesLeft count s ≤ fuel)%nat →
  loopGuard count (runLoop randomizeRepeats count fuel s) = false.
Proof.
  revert s. induction fuel as [|fuel IH]; intros s Hfuel; simpl.
  - destruct (loopGuard count s) eqn:Hg; [| done].
    pose proof (passesLeft_decreases randomizeRepeats count s Hg). lia.
  - destruct (loopGuard count s) eqn:Hg; [| done].
    apply IH. pose proof (passesLeft_decreases randomizeRepeats count s Hg). lia.
Qed.

Lemma iterations_le_passesLeft randomizeRepeats count fuel s :
  (iterations randomizeRepeats count fuel s ≤ passesLeft count s)%nat.
Proof.
  revert s. induction fuel as [|fuel IH]; intros s; simpl; [lia |].
  destruct (loopGuard count s) eqn:Hg; [| lia].
  pose proof (passesLeft_decreases randomizeRepeats count s Hg).
  pose proof (IH (loopBody randomizeRepeats count s)). lia.
Qed.

(** More fuel changes neither the final state nor the number of passes. *)
Lemma runLoop_fuel_irrelevant randomizeRepeats count fuel fuel' s :
  (passesLeft count s ≤ fuel)%nat → (passesLeft count s ≤ fuel')%nat →
  runLoop randomizeRepeats count fuel s = runLoop randomizeRepeats count fuel' s ∧
  iterations randomizeRepeats count fuel s = iterations randomizeRepeats count fuel' s.
Proof.
  revert fuel' s. induction fuel as [|fuel IH]; intros fuel' s Hf Hf'.
  - destruct fuel' as [|fuel']; simpl; [done |].
    destruct (loopGuard count s) eqn:Hg; [| done].
    pose proof (passesLeft_decreases randomizeRepeats count s Hg). lia.
  - destruct fuel' as [|fuel']; simpl.
    + destruct (loopGuard count s) eqn:Hg; [| done].
      pose proof (passesLeft_decreases randomizeRepeats count s Hg). lia.
    + destruct (loopGuard count s) eqn:Hg; [| done].
      pose proof (passesLeft_decreases randomizeRepeats count s Hg).
      destruct (IH fuel' (loopBody randomizeRepeats count s)) as [-> ->]; [lia | lia | done].
Qed.


Lemma counted_init pool : counted (mkLoop pool ∅ []).
Proof. intros i. simpl. by rewrite lookup_empty. Qed.

Lemma counted_pass randomizeRepeats count s x rest s' :
  pass randomizeRepeats count s x rest s' → counted s → counted s'.
Proof.
  intros [_ | requeue c Hacc Hre] Hcnt i; simpl; [apply Hcnt |].
  rewrite fmap_app. change (RoomItem.itemId <$> [x]) with [RoomItem.itemId x].
  rewrite occurrences_snoc.
  destruct (decide (RoomItem.itemId x = i)) as [<- | Hne].
  - rewrite lookup_insert_eq. simpl. subst c. rewrite Hcnt. lia.
  - rewrite lookup_insert_ne by done. rewrite Hcnt. lia.
Qed.

Lemma counted_loopBody randomizeRepeats count s :
  counted s → loopGuard count s = true → counted (loopBody randomizeRepeats count s).
Proof.
  intros Hcnt [_ (x & rest & Hpool)]%loopGuard_true.
  eapply counted_pass; [by apply loopBody_pass | done].
Qed.

Lemma occurrences_fmap_le {A B : Type} `{EqDecision A} `{EqDecision B}
    (f : A → B) (a : A) (l : list A) :
  (occurrences a l ≤ occurrences (f a) (f <$> l))%nat.
Proof.
  unfold occurrences. induction l as [|y l IH]; [done |].
  rewrite fmap_cons. destruct (decide (y = a)) as [-> | Hne].
  - rewrite !filter_cons_True by done. simpl. lia.
  - rewrite (filter_cons_False (λ z, z = a)) by done.
    destruct (decide (f y = f a)) as [Heq | Hne'].
    + rewrite filter_cons_True by done. simpl. lia.
    + by rewrite filter_cons_False.
Qed.

Lemma occurrences_fmap_eq {A B : Type} `{EqDecision A} `{EqDecision B}
    (f : A → B) (a : A) (l : list A) :
  (∀ y, y ∈ l → f y = f a → y = a) →
  occurrences (f a) (f <$> l) = occurrences a l.
Proof.
  unfold occurrences. induction l as [|y l IH]; intros Hinj; [done |].
  rewrite fmap_cons. destruct (decide (y = a)) as [-> | Hne].
  - rewrite !filter_cons_True by done. simpl. f_equal. apply IH.
    intros z Hz. apply Hinj. by right.
  - rewrite (filter_cons_False (λ z, z = a)) by done. rewrite filter_cons_False.
    + apply IH. intros z Hz. apply Hinj. by right.
    + intros Heq. apply Hne, Hinj; [left | done].
Qed.

Lemma occurrences_NoDup {A : Type} `{EqDecision A} (x : A) (l : list A) :
  NoDup l → (occurrences x l ≤ 1)%nat.
Proof.
  unfold occurrences. induction 1 as [|y l Hy Hnd IH]; [simpl; lia |].
  destruct (decide (y = x)) as [-> | Hne].
  - rewrite filter_cons_True by done. simpl.
    assert (¬ (0 < occurrences x l)%nat) as Hz by (by rewrite occurrences_pos).
    unfold occurrences in Hz. lia.
  - by rewrite filter_cons_False.
Qed.

Lemma NoDup_fmap_eq {A B : Type} (f : A → B) (l : list A) (x y : A) :
  NoDup (f <$> l) → x ∈ l → y ∈ l → f x = f y → x = y.
Proof.
  induction l as [|z l IH]; intros Hnd Hx Hy Heq; [inversion Hx |].
  rewrite fmap_cons in Hnd. apply NoDup_cons in Hnd as [Hz Hnd].
  apply elem_of_cons in Hx as [-> | Hx]; apply elem_of_cons in Hy as [-> | Hy].
  - done.
  - exfalso. apply Hz. rewrite Heq. by apply list_elem_of_fmap_2.
  - exfalso. apply Hz. rewrite <- Heq. by apply list_elem_of_fmap_2.
  - by apply IH.
Qed.


Lemma capped_init pool : capped pool (mkLoop pool ∅ []).
Proof.
  split; [apply counted_init |]. split; simpl.
  - intros x [Hx | Hx]; [done | inversion Hx].
  - intros a Ha. done.
Qed.

Lemma capped_loopBody pool0 randomizeRepeats count s :
  capped pool0 s → loopGuard count s = true →
  capped pool0 (loopBody randomizeRepeats count s).
Proof.
  intros (Hcnt & Hsrc & Hcap) Hg.
  split; [by apply counted_loopBody |].
  apply loopGuard_true in Hg as [_ (x & rest & Hpool)].
  pose proof (loopBody_pass randomizeRepeats count s x rest Hpool) as Hpass.
  rewrite Hpool in Hsrc.
  destruct Hpass as [_ | requeue c Hacc Hre]; simpl.
  - split; [| done]. intros y [Hy | Hy]; apply Hsrc; [left; by right | by right].
  - split.
    + intros y [Hy | Hy]; apply Hsrc.
      * left. apply elem_of_app in Hy as [Hy | Hy]; [by right |].
        destruct Hre as [-> | (-> & _)]; [inversion Hy |].
        apply list_elem_of_singleton in Hy as ->. left.
      * apply elem_of_app in Hy as [Hy | Hy]; [by right |].
        apply list_elem_of_singleton in Hy as ->. left. left.
    + intros a Ha. rewrite occurrences_snoc.
      destruct (decide (x = a)) as [-> | Hne]; [| specialize (Hcap a Ha); lia].
      pose proof (occurrences_fmap_le RoomItem.itemId a (result s)) as Hle.
      subst c. rewrite Hcnt in Hacc. lia.
Qed.

Lemma elem_of_buildItemPool x items : x ∈ buildItemPool items ↔ x ∈ items.
Proof.
  unfold buildItemPool. rewrite list_elem_of_bind. split.
  - by intros (y & ->%elem_of_replicate_inv & Hin).
  - intros Hin. exists x. split; [| done]. apply elem_of_replicate. split; [done |].
    unfold copies. lia.
Qed.

(** While the loop is still within the first [k] entries of the pool it
    started with, every item among those [k] is already in the result. *)
Lemma iterations_within_pool randomizeRepeats count pool0 (ids : list Z) :
  (∀ x, x ∈ pool0 → 1 ≤ repeatCap x) →
  NoDup ids → (∀ i, i ∈ ids → i ∈ RoomItem.itemId <$> pool0) →
  count ≤ Z.of_nat (length ids) →
  ∀ fuel k s,
    (k ≤ length pool0)%nat →
    (∃ requeued, itemPool s = drop k pool0 ++ requeued) →
    counted s →
    (∀ x, x ∈ take k pool0 → RoomItem.itemId x ∈ RoomItem.itemId <$> result s) →
    (iterations randomizeRepeats count fuel s ≤ length pool0 - k)%nat.
Proof.
  intros Hcap Hnd Hids Hcount fuel.
  induction fuel as [|fuel IH]; intros k s Hk (requeued & Hpool) Hcnt Hseen; simpl; [lia |].
  destruct (loopGuard count s) eqn:Hg; [| lia].
  pose proof (counted_loopBody randomizeRepeats count s Hcnt Hg) as Hcnt'.
  apply loopGuard_true in Hg as [Hlt (y & rest & Hpool')].
  destruct (decide (k = length pool0)) as [-> | Hne].
  { exfalso. rewrite firstn_all in Hseen.
    assert (ids ⊆+ RoomItem.itemId <$> result s) as Hsub.
    { apply NoDup_submseteq; [done |]. intros i Hi.
      apply Hids, list_elem_of_fmap in Hi as (x & -> & Hx). by apply Hseen. }
    apply submseteq_length in Hsub. rewrite length_fmap in Hsub. lia. }
  destruct (lookup_lt_is_Some_2 pool0 k) as [x Hx]; [lia |].
  rewrite (drop_S _ _ _ Hx) in Hpool. rewrite Hpool in Hpool'.
  injection Hpool' as <- <-.
  assert (itemPool s = x :: drop (S k) pool0 ++ requeued) as Hpool' by done.
  pose proof (loopBody_pass randomizeRepeats count s x _ Hpool') as Hpass.
  assert (x ∈ pool0) as Hxin by (by eapply list_elem_of_lookup_2).
  enough (iterations randomizeRepeats count fuel (loopBody randomizeRepeats count s)
          ≤ length pool0 - S k)%nat by lia.
  apply IH; [lia | | done |].
  - destruct Hpass as [Hskip | requeue c Hacc Hre]; simpl; [by eexists |].
    exists (requeued ++ requeue). by rewrite app_assoc.
  - intros z Hz. rewrite (take_S_r _ _ _ Hx) in Hz.
    apply elem_of_app in Hz as [Hz | ->%list_elem_of_singleton].
    + specialize (Hseen z Hz).
      destruct Hpass as [Hskip | requeue c Hacc Hre]; simpl; [done |].
      rewrite fmap_app, elem_of_app. by left.
    + destruct Hpass as [Hskip | requeue c Hacc Hre]; simpl.
      * apply occurrences_pos. specialize (Hcap x Hxin). rewrite Hcnt in Hskip. lia.
      * rewrite fmap_app, elem_of_app. right. simpl. left.
Qed.

(** ** Shuffles and sample data *)

(** Settles a bound on a field for each entry of a literal list. *)
Ltac each_entry H :=
  repeat (apply elem_of_cons in H as [-> | H]; [simpl; lia |]); inversion H.

Lemma keepOrder_permuting : permuting keepOrder.
Proof. intros A l. reflexivity. Qed.

Lemma reverseOrder_permuting : permuting reverseOrder.
Proof. intros A l. apply reverse_Permutation. Qed.

Lemma distinctRooms_NoDup allRooms :
  NoDup (Room.id <$> allRooms) → distinctRooms allRooms = length allRooms.
Proof.
  intros Hnd. unfold distinctRooms. rewrite <- (length_fmap Room.id allRooms).
  apply Permutation_length, NoDup_Permutation; [apply NoDup_remove_dups | done |].
  intros i. apply elem_of_remove_dups.
Qed.

Lemma catalog_ids_distinct : NoDup (Room.id <$> catalog).
Proof. compute_done. Qed.

Lemma catalog_probabilities r : r ∈ catalog → 1 ≤ Room.probability r.
Proof.
  intros Hr. unfold catalog in Hr. each_entry Hr.
Qed.

Lemma loot_ids_distinct : NoDup (RoomItem.id <$> loot).
Proof. compute_done. Qed.

Lemma loot_items_distinct : NoDup (RoomItem.itemId <$> loot).
Proof. compute_done. Qed.

Lemma loot_maxRepeats x :
  x ∈ loot → RoomItem.canRepeat x = true → 0 ≤ RoomItem.maxRepeats x.
Proof.
  intros Hx _. unfold loot in Hx. each_entry Hx.
Qed.

(** ** The room selector of the persistent backend *)

(** Claim C10. A catalog of at most [count] rooms is returned whole and in
    its own order; the shuffle has no part in the result. *)
Theorem getRandomRooms_small_catalog shuffle allRooms count :
  Z.of_nat (length allRooms) ≤ count →
  DatabaseStorage.getRandomRooms shuffle allRooms count = allRooms.
Proof. intros Hle. unfold DatabaseStorage.getRandomRooms. by rewrite decide_True. Qed.

Lemma getRandomRooms_small_catalog_witness :
  Z.of_nat (length catalog) ≤ 3 ∧
  DatabaseStorage.getRandomRooms reverseOrder catalog 3 = catalog.
Proof.
  split; [simpl; lia |].
  apply (getRandomRooms_small_catalog reverseOrder). simpl. lia.
Defined.

(** Claim C6. Over a catalog whose ids are pairwise distinct, no room id is
    returned twice, whatever the count and the shuffle. *)
Theorem getRandomRooms_no_duplicate shuffle allRooms count :
  NoDup (Room.id <$> allRooms) →
  NoDup (Room.id <$> DatabaseStorage.getRandomRooms shuffle allRooms count).
Proof.
  intros Hnd. unfold DatabaseStorage.getRandomRooms. case_decide; [done |].
  apply (pickRooms_tracked count _ [] ∅ tracked_nil).
Qed.

Lemma getRandomRooms_no_duplicate_witness :
  NoDup (Room.id <$> catalog) ∧
  NoDup (Room.id <$> DatabaseStorage.getRandomRooms reverseOrder catalog 2).
Proof.
  split; [exact catalog_ids_distinct |].
  exact (getRandomRooms_no_duplicate reverseOrder catalog 2 catalog_ids_distinct).
Defined.

(** Claim C4, for counts of at least one. Over a catalog with pairwise
    distinct ids whose rooms all have a probability of at least one, the
    selector returns exactly [min count (number of distinct rooms)] rooms. *)
Theorem getRandomRooms_length shuffle allRooms count :
  permuting shuffle →
  NoDup (Room.id <$> allRooms) →
  (∀ r, r ∈ allRooms → 1 ≤ Room.probability r) →
  1 ≤ count →
  Z.of_nat (length (DatabaseStorage.getRandomRooms shuffle allRooms count))
  = Z.min count (Z.of_nat (distinctRooms allRooms)).
Proof.
  intros Hperm Hnd Hprob Hcount. rewrite (distinctRooms_NoDup _ Hnd).
  unfold DatabaseStorage.getRandomRooms. case_decide as Hsmall; [lia |].
  set (shuffled := shuffle _ (weightedRooms allRooms)).
  destruct (pickRooms_length count shuffled [] ∅) as [Hle Hshort]; [simpl; lia |].
  destruct (pickRooms_tracked count shuffled [] ∅ tracked_nil) as [Hids Hsel].
  destruct (decide (Z.of_nat (length (pickRooms count shuffled [] ∅).1) = count))
    as [-> | Hne]; [lia |].
  exfalso. destruct Hshort as [_ Hseen]; [lia |].
  assert (Room.id <$> allRooms ⊆+ Room.id <$> (pickRooms count shuffled [] ∅).1) as Hsub.
  { apply NoDup_submseteq; [done |].
    intros i (r & -> & Hr)%list_elem_of_fmap. apply Hids, Hseen.
    unfold shuffled. rewrite (Hperm _ _). apply elem_of_weightedRooms.
    split; [done |]. specialize (Hprob r Hr). lia. }
  apply submseteq_length in Hsub. rewrite !length_fmap in Hsub. lia.
Qed.

Lemma getRandomRooms_length_witness :
  permuting reverseOrder ∧
  NoDup (Room.id <$> catalog) ∧
  (∀ r, r ∈ catalog → 1 ≤ Room.probability r) ∧
  1 ≤ 2 ∧
  Z.of_nat (length (DatabaseStorage.getRandomRooms reverseOrder catalog 2))
  = Z.min 2 (Z.of_nat (distinctRooms catalog)).
Proof.
  split; [exact reverseOrder_permuting |]. split; [exact catalog_ids_distinct |].
  split; [exact catalog_probabilities |]. split; [lia |].
  apply (getRandomRooms_length reverseOrder catalog 2 reverseOrder_permuting
           catalog_ids_distinct catalog_probabilities).
  lia.
Defined.

(** Claim C4 at [count = 0]. The walk breaks only when the number of
    selected rooms equals [count], which it never does after a push: the
    three rooms of the catalog are returned where the claim has none. *)
Lemma getRandomRooms_length_count_zero :
  permuting keepOrder ∧
  (∀ r, r ∈ catalog → 1 ≤ Room.probability r) ∧
  0 ≤ 0 ∧
  DatabaseStorage.getRandomRooms keepOrder catalog 0 = catalog ∧
  Z.of_nat (length (DatabaseStorage.getRandomRooms keepOrder catalog 0))
  ≠ Z.min 0 (Z.of_nat (distinctRooms catalog)).
Proof.
  split; [exact keepOrder_permuting |]. split; [exact catalog_probabilities |].
  split; [lia |]. split; [vm_compute; reflexivity | vm_compute; discriminate].
Qed.

(** ** Counts of zero or less *)

Lemma consumePool_nonpositive randomizeRepeats count pool :
  count ≤ 0 → result (consumePool randomizeRepeats count pool) = [].
Proof.
  intros Hc. unfold consumePool.
  destruct (loopFuel count (mkLoop pool ∅ [])) as [|fuel]; simpl; [done |].
  unfold loopGuard. simpl. rewrite bool_decide_eq_false_2 by lia. done.
Qed.

(** Claim C2, with the room selector as it is. For a count of zero or less
    the item drafter returns the empty list; the room selector returns the
    empty list exactly when no room of the catalog has a positive
    probability. *)
Theorem nonpositive_count shuffle room allRooms allRoomItems count :
  permuting shuffle →
  count ≤ 0 →
  DatabaseStorage.getRandomRoomItemsWithDetails shuffle (Some room) allRoomItems count
  = Ok [] ∧
  (DatabaseStorage.getRandomRooms shuffle allRooms count = [] ↔
   ∀ r, r ∈ allRooms → Room.probability r ≤ 0).
Proof.
  intros Hperm Hc. split.
  - unfold DatabaseStorage.getRandomRoomItemsWithDetails. case_decide as Hsmall.
    + destruct allRoomItems; [done | simpl in Hsmall; lia].
    + by rewrite consumePool_nonpositive.
  - unfold DatabaseStorage.getRandomRooms. case_decide as Hsmall.
    + destruct allRooms; [| simpl in Hsmall; lia].
      split; [intros _ r Hr; inversion Hr | done].
    + rewrite (pickRooms_nonpositive _ _ Hc), <- weightedRooms_nil. split.
      * intros Hnil. apply Permutation_nil_r. by rewrite <- (Hperm _ _), Hnil.
      * intros Hnil. apply Permutation_nil_r. by rewrite (Hperm _ _), Hnil.
Qed.

Lemma nonpositive_count_witness :
  permuting reverseOrder ∧
  -1 ≤ 0 ∧
  DatabaseStorage.getRandomRoomItemsWithDetails reverseOrder (Some hall) loot (-1)
  = Ok [] ∧
  (DatabaseStorage.getRandomRooms reverseOrder [cellar] (-1) = [] ↔
   ∀ r, r ∈ [cellar] → Room.probability r ≤ 0).
Proof.
  split; [exact reverseOrder_permuting |]. split; [lia |].
  apply (nonpositive_count reverseOrder hall [cellar] loot (-1));
    [exact reverseOrder_permuting | lia].
Defined.

(** Claim C2 at [count = -1], a count the route hands over unchanged: the
    room selector returns every room of the catalog, not the empty list. *)
Lemma getRandomRooms_negative_count_not_empty :
  -1 ≤ 0 ∧
  DatabaseStorage.getRandomRooms keepOrder catalog (-1) = catalog ∧
  DatabaseStorage.getRandomRooms keepOrder catalog (-1) ≠ [].
Proof. split; [lia |]. split; [vm_compute; reflexivity | vm_compute; discriminate]. Qed.

(** ** The item drafter of the persistent backend *)

(** Claim C9. A pool of at most [count] assignments is returned whole, each
    assignment once and in stored order; shuffle, weights, repeat rules and
    the guaranteed flag have no part in the result. *)
Theorem getRandomRoomItems_small_pool shuffle room allRoomItems count :
  Z.of_nat (length allRoomItems) ≤ count →
  DatabaseStorage.getRandomRoomItemsWithDetails shuffle (Some room) allRoomItems count
  = Ok allRoomItems.
Proof.
  intros Hle. unfold DatabaseStorage.getRandomRoomItemsWithDetails. by rewrite decide_True.
Qed.

Lemma getRandomRoomItems_small_pool_witness :
  Z.of_nat (length loot) ≤ 3 ∧
  DatabaseStorage.getRandomRoomItemsWithDetails reverseOrder (Some hall) loot 3
  = Ok loot.
Proof.
  split; [simpl; lia |].
  apply (getRandomRoomItems_small_pool reverseOrder hall loot 3). simpl. lia.
Defined.

(** Claim C3, with the result the code gives. In the scenario of one
    repeatable assignment (probability 100, [maxRepeats = 3], not guaranteed),
    a room that randomizes repeats and [count = 3], the drafter returns the
    assignment once: a pool of one is not longer than [count], so it is
    returned as stored and the loop that could repeat it is not entered. *)
Theorem single_repeatable_item_once shuffle (roomId probability itemsToShow id itemId : Z) :
  let room := Room.mk roomId probability itemsToShow true in
  let item := RoomItem.mk id roomId itemId 100 true 3 false in
  DatabaseStorage.getRandomRoomItemsWithDetails shuffle (Some room) [item] 3
  = Ok [item].
Proof.
  intros room item. unfold DatabaseStorage.getRandomRoomItemsWithDetails.
  rewrite decide_True; [done | simpl; lia].
Qed.

(** Claim C3 as it is worded: the result is not three copies. *)
Lemma single_repeatable_item_not_thrice :
  DatabaseStorage.getRandomRoomItemsWithDetails keepOrder (Some hall) [item1] 3
  ≠ Ok [item1; item1; item1].
Proof. vm_compute. discriminate. Qed.

(** Claim C5. No assignment is returned more often than its cap:
    [maxRepeats], or one when that is zero, for an assignment that may
    repeat; one for an assignment that may not. Assignment ids are pairwise
    distinct and [maxRepeats] is not negative, as the data model has it. *)
Theorem repeat_cap_respected shuffle room allRoomItems count :
  permuting shuffle →
  NoDup (RoomItem.id <$> allRoomItems) →
  (∀ x, x ∈ allRoomItems → RoomItem.canRepeat x = true → 0 ≤ RoomItem.maxRepeats x) →
  ∃ drawn,
    DatabaseStorage.getRandomRoomItemsWithDetails shuffle (Some room) allRoomItems count
    = Ok drawn ∧
    ∀ a, a ∈ allRoomItems →
      let n := Z.of_nat (occurrences (RoomItem.id a) (RoomItem.id <$> drawn)) in
      (RoomItem.canRepeat a = true → n ≤ js_or (RoomItem.maxRepeats a) 1) ∧
      (RoomItem.canRepeat a = false → n ≤ 1).
Proof.
  intros Hperm Hnd Hmax.
  assert (∀ a, a ∈ allRoomItems → 1 ≤ repeatCap a) as Hcap.
  { intros a Ha. unfold repeatCap, js_or. specialize (Hmax a Ha).
    destruct (RoomItem.canRepeat a); [| lia]. case_decide; lia. }
  enough (∃ drawn,
    DatabaseStorage.getRandomRoomItemsWithDetails shuffle (Some room) allRoomItems count
    = Ok drawn ∧
    ∀ a, a ∈ allRoomItems →
         Z.of_nat (occurrences (RoomItem.id a) (RoomItem.id <$> drawn)) ≤ repeatCap a)
    as (drawn & Hdraw & Hocc).
  { exists drawn. split; [done |]. intros a Ha n. specialize (Hocc a Ha).
    unfold repeatCap in Hocc. subst n. split; intros Hrep; by rewrite Hrep in Hocc. }
  unfold DatabaseStorage.getRandomRoomItemsWithDetails. case_decide as Hsmall.
  - exists allRoomItems. split; [done |]. intros a Ha.
    pose proof (occurrences_NoDup (RoomItem.id a) _ Hnd). specialize (Hcap a Ha). lia.
  - eexists. split; [reflexivity |]. intros a Ha.
    set (pool := shuffle _ (buildItemPool allRoomItems)).
    destruct (runLoop_invariant (capped pool) (Room.randomizeRepeats room) count
                (capped_loopBody pool _ count)
                (loopFuel count (mkLoop pool ∅ [])) _ (capped_init pool))
      as (_ & Hsrc & Hocc).
    fold (consumePool (Room.randomizeRepeats room) count pool) in Hsrc, Hocc.
    assert (∀ x, x ∈ pool → x ∈ allRoomItems) as Hpool.
    { intros x. unfold pool. by rewrite (Hperm _ _), elem_of_buildItemPool. }
    rewrite occurrences_fmap_eq.
    + apply Hocc. specialize (Hcap a Ha). lia.
    + intros y Hy. apply (NoDup_fmap_eq _ _ _ _ Hnd); [| done].
      apply Hpool, Hsrc. by right.
Qed.

Lemma repeat_cap_respected_witness :
  permuting keepOrder ∧
  NoDup (RoomItem.id <$> loot) ∧
  (∀ x, x ∈ loot → RoomItem.canRepeat x = true → 0 ≤ RoomItem.maxRepeats x) ∧
  ∃ drawn,
    DatabaseStorage.getRandomRoomItemsWithDetails keepOrder (Some hall) loot 2
    = Ok drawn ∧
    ∀ a, a ∈ loot →
      let n := Z.of_nat (occurrences (RoomItem.id a) (RoomItem.id <$> drawn)) in
      (RoomItem.canRepeat a = true → n ≤ js_or (RoomItem.maxRepeats a) 1) ∧
      (RoomItem.canRepeat a = false → n ≤ 1).
Proof.
  split; [exact keepOrder_permuting |]. split; [exact loot_ids_distinct |].
  split; [exact loot_maxRepeats |].
  exact (repeat_cap_respected keepOrder hall loot 2 keepOrder_permuting
           loot_ids_distinct loot_maxRepeats).
Defined.

(** ** Termination and cost of the consumption loop *)

(** Claim C7, with the bound that holds for every input. The consumption
    loop of the drafter always reaches its exit, after at most
    [pool.length + max 0 (count - 1)] passes; when the assignments refer to
    pairwise distinct items and no repeatable one has a negative
    [maxRepeats], after at most [pool.length] passes, [pool] being the
    shuffled replication pool. The loop is entered only with more
    assignments than [count]. *)
Theorem consumption_loop_bounded (shuffle : ∀ A : Type, list A → list A)
    room allRoomItems count :
  let pool := shuffle _ (buildItemPool allRoomItems) in
  let s0 := mkLoop pool ∅ [] in
  let randomizeRepeats := Room.randomizeRepeats room in
  (count < Z.of_nat (length allRoomItems) →
   DatabaseStorage.getRandomRoomItemsWithDetails shuffle (Some room) allRoomItems count
   = Ok (result (consumePool randomizeRepeats count pool))) ∧
  loopGuard count (consumePool randomizeRepeats count pool) = false ∧
  (iterations randomizeRepeats count (loopFuel count s0) s0
   ≤ length pool + Z.to_nat (count - 1))%nat ∧
  (permuting shuffle →
   count < Z.of_nat (length allRoomItems) →
   NoDup (RoomItem.itemId <$> allRoomItems) →
   (∀ x, x ∈ allRoomItems → RoomItem.canRepeat x = true → 0 ≤ RoomItem.maxRepeats x) →
   (iterations randomizeRepeats count (loopFuel count s0) s0 ≤ length pool)%nat).
Proof.
  intros pool s0 randomizeRepeats. split; [| split; [| split]].
  - intros Hlong. unfold DatabaseStorage.getRandomRoomItemsWithDetails.
    by rewrite decide_False by lia.
  - apply runLoop_exits, passesLeft_le_loopFuel.
  - pose proof (iterations_le_passesLeft randomizeRepeats count (loopFuel count s0) s0) as H.
    unfold passesLeft in H. simpl in H. by rewrite Z.sub_0_r in H.
  - intros Hperm Hlong Hnd Hmax.
    pose proof (iterations_within_pool randomizeRepeats count pool
                  (RoomItem.itemId <$> allRoomItems)) as Hin.
    rewrite <- (Nat.sub_0_r (length pool)).
    apply Hin; [| done | | rewrite length_fmap; lia | lia
                | exists []; simpl; by rewrite app_nil_r | apply counted_init |].
    + intros x Hx. unfold pool in Hx. rewrite (Hperm _ _), elem_of_buildItemPool in Hx.
      unfold repeatCap, js_or. specialize (Hmax x Hx).
      destruct (RoomItem.canRepeat x); [| lia]. case_decide; lia.
    + intros i (x & -> & Hx)%list_elem_of_fmap. apply list_elem_of_fmap_2.
      unfold pool. by rewrite (Hperm _ _), elem_of_buildItemPool.
    + intros x Hx. inversion Hx.
Qed.

Lemma consumption_loop_bounded_witness :
  let pool := reverseOrder _ (buildItemPool loot) in
  let s0 := mkLoop pool ∅ [] in
  permuting reverseOrder ∧
  2 < Z.of_nat (length loot) ∧
  NoDup (RoomItem.itemId <$> loot) ∧
  (∀ x, x ∈ loot → RoomItem.canRepeat x = true → 0 ≤ RoomItem.maxRepeats x) ∧
  DatabaseStorage.getRandomRoomItemsWithDetails reverseOrder (Some hall) loot 2
  = Ok (result (consumePool true 2 pool)) ∧
  loopGuard 2 (consumePool true 2 pool) = false ∧
  (iterations true 2 (loopFuel 2 s0) s0 ≤ length pool + Z.to_nat (2 - 1))%nat ∧
  (iterations true 2 (loopFuel 2 s0) s0 ≤ length pool)%nat.
Proof.
  assert (2 < Z.of_nat (length loot)) as Hlong by (simpl; lia).
  split; [exact reverseOrder_permuting |]. split; [exact Hlong |].
  split; [exact loot_items_distinct |]. split; [exact loot_maxRepeats |].
  destruct (consumption_loop_bounded reverseOrder hall loot 2)
    as (Hdraw & Hexit & Hall & Hbound).
  split; [exact (Hdraw Hlong) |]. split; [exact Hexit |]. split; [exact Hall |].
  exact (Hbound reverseOrder_permuting Hlong loot_items_distinct loot_maxRepeats).
Defined.

(** Claim C7 as it is worded, for every input: three assignments of one
    item, the first repeatable. It is drawn and re-queued behind the two
    others, these are skipped, and it is drawn again: four passes over a
    pool of three. *)
Lemma consumption_loop_exceeds_pool :
  let pool := keepOrder _ (buildItemPool runes) in
  let s0 := mkLoop pool ∅ [] in
  permuting keepOrder ∧
  DatabaseStorage.getRandomRoomItemsWithDetails keepOrder (Some hall) runes 2
  = Ok (result (consumePool (Room.randomizeRepeats hall) 2 pool)) ∧
  result (consumePool (Room.randomizeRepeats hall) 2 pool) = [rune; rune] ∧
  length pool = 3%nat ∧
  iterations (Room.randomizeRepeats hall) 2 (loopFuel 2 s0) s0 = 4%nat ∧
  ¬ (iterations (Room.randomizeRepeats hall) 2 (loopFuel 2 s0) s0 ≤ length pool)%nat.
Proof.
  split; [exact keepOrder_permuting |].
  repeat split; try (vm_compute; reflexivity).
  vm_compute. lia.
Qed.

(** ** Guaranteed assignments *)

(** The in-memory backend puts every guaranteed assignment at the head of
    its result when [count] leaves room for them all. *)
Lemma mem_draw_keeps_guaranteed shuffle room allRoomItems count :
  let guaranteedItems := filter (λ item, RoomItem.isGuaranteed item = true) allRoomItems in
  Z.of_nat (length guaranteedItems) ≤ count →
  ∃ drawn,
    MemStorage.getRandomRoomItemsWithDetails shuffle (Some room) allRoomItems count
    = Ok (guaranteedItems ++ drawn).
Proof.
  intros guaranteedItems Hroom. unfold MemStorage.getRandomRoomItemsWithDetails.
  fold guaranteedItems. case_decide as Hfull.
  - exists []. rewrite app_nil_r. unfold slice0. rewrite decide_False by lia.
    rewrite firstn_all2; [done | lia].
  - case_decide; [exists []; by rewrite app_nil_r |].
    case_decide; eauto.
Qed.

(** Claim C1 on the persistent backend. A guaranteed key and a plain coin,
    one slot: the persistent draw never reads [isGuaranteed] and, with a
    copy of the coin shuffled to the front, returns the coin; the in-memory
    draw returns the key on the same input. *)
Theorem database_draw_drops_guaranteed :
  length (filter (λ item, RoomItem.isGuaranteed item = true) [key; coin]) = 1%nat ∧
  DatabaseStorage.getRandomRoomItemsWithDetails reverseOrder (Some hall) [key; coin] 1
  = Ok [coin] ∧
  MemStorage.getRandomRoomItemsWithDetails reverseOrder (Some hall) [key; coin] 1
  = Ok [key].
Proof. repeat split; vm_compute; reflexivity. Qed.

(** ** The in-memory backend on the same inputs *)

(** The in-memory selector has the same walk and, like the persistent one,
    no test of a count of zero or less. *)
Example mem_getRandomRooms_count_zero :
  MemStorage.getRandomRooms keepOrder catalog 0 = catalog.
Proof. vm_compute. reflexivity. Qed.

(** The in-memory drafter too returns a pool of one assignment as stored. *)
Example mem_single_repeatable_item_once :
  MemStorage.getRandomRoomItemsWithDetails keepOrder (Some hall) [item1] 3 = Ok [item1].
Proof. vm_compute. reflexivity. Qed.

(** The in-memory loop is the same loop: the same four passes over the
    three assignments of one item. *)
Example mem_runes_drawn :
  MemStorage.getRandomRoomItemsWithDetails keepOrder (Some hall) runes 2
  = Ok [rune; rune].
Proof. vm_compute. reflexivity. Qed.

(** * Further properties of the draws *)

(** ** The consumption loop *)

Lemma loopBody_length randomizeRepeats count s :
  loopGuard count s = true →
  Z.of_nat (length (result s)) ≤ Z.max count 0 →
  Z.of_nat (length (result (loopBody randomizeRepeats count s))) ≤ Z.max count 0.
Proof.
  intros [Hlt (x & rest & Hpool)]%loopGuard_true Hle.
  destruct (loopBody_pass randomizeRepeats count s x rest Hpool)
    as [_ | requeue c _ _]; simpl; [done |].
  rewrite length_app. simpl. lia.
Qed.

Lemma consumePool_length randomizeRepeats count pool :
  Z.of_nat (length (result (consumePool randomizeRepeats count pool))) ≤ Z.max count 0.
Proof.
  unfold consumePool.
  apply (runLoop_invariant (λ s, Z.of_nat (length (result s)) ≤ Z.max count 0)).
  - intros s Hs Hg. by apply loopBody_length.
  - simpl. lia.
Qed.

Lemma consumePool_from_pool randomizeRepeats count pool x :
  x ∈ result (consumePool randomizeRepeats count pool) → x ∈ pool.
Proof.
  intros Hx. unfold consumePool in Hx.
  destruct (runLoop_invariant (capped pool) randomizeRepeats count
              (capped_loopBody pool _ count)
              (loopFuel count (mkLoop pool ∅ [])) _ (capped_init pool))
    as (_ & Hsrc & _).
  apply Hsrc. by right.
Qed.

Lemma consumed_init count pool : consumed count pool 0 (mkLoop pool ∅ []).
Proof.
  split; [lia |]. split; [exists []; simpl; by rewrite app_nil_r |].
  split; [apply counted_init |]. split; [intros x Hx; inversion Hx | simpl; lia].
Qed.

(** Once every entry of the initial pool is dealt with, the result holds
    every item of the pool. *)
Lemma consumed_all_full count pool0 (ids : list Z) s :
  NoDup ids → (∀ i, i ∈ ids → i ∈ RoomItem.itemId <$> pool0) →
  consumed count pool0 (length pool0) s →
  (length ids ≤ length (result s))%nat.
Proof.
  intros Hnd Hids (_ & _ & _ & Hseen & _). rewrite firstn_all in Hseen.
  assert (ids ⊆+ RoomItem.itemId <$> result s) as Hsub.
  { apply NoDup_submseteq; [done |]. intros i Hi.
    apply Hids, list_elem_of_fmap in Hi as (x & -> & Hx). by apply Hseen. }
  apply submseteq_length in Hsub. by rewrite length_fmap in Hsub.
Qed.

Lemma consumed_loopBody randomizeRepeats count pool0 (ids : list Z) k s :
  (∀ x, x ∈ pool0 → 1 ≤ repeatCap x) →
  NoDup ids → (∀ i, i ∈ ids → i ∈ RoomItem.itemId <$> pool0) →
  count ≤ Z.of_nat (length ids) →
  consumed count pool0 k s → loopGuard count s = true →
  consumed count pool0 (S k) (loopBody randomizeRepeats count s).
Proof.
  intros Hcap Hnd Hids Hcount Hcons Hg.
  pose proof Hcons as (Hk & (requeued & Hpool) & Hcnt & Hseen & Hlen).
  pose proof (counted_loopBody randomizeRepeats count s Hcnt Hg) as Hcnt'.
  pose proof (loopBody_length randomizeRepeats count s Hg Hlen) as Hlen'.
  apply loopGuard_true in Hg as [Hlt (y & rest & Hpool')].
  destruct (decide (k = length pool0)) as [-> | Hne].
  { pose proof (consumed_all_full count pool0 ids s Hnd Hids Hcons). lia. }
  destruct (lookup_lt_is_Some_2 pool0 k) as [x Hx]; [lia |].
  rewrite (drop_S _ _ _ Hx) in Hpool. rewrite Hpool in Hpool'.
  injection Hpool' as <- <-.
  assert (itemPool s = x :: drop (S k) pool0 ++ requeued) as Hpool' by done.
  pose proof (loopBody_pass randomizeRepeats count s x _ Hpool') as Hpass.
  assert (x ∈ pool0) as Hxin by (by eapply list_elem_of_lookup_2).
  split; [lia |]. split; [| split; [done | split; [| done]]].
  - destruct Hpass as [_ | requeue c Hacc Hre]; simpl; [by eexists |].
    exists (requeued ++ requeue). by rewrite app_assoc.
  - intros z Hz. rewrite (take_S_r _ _ _ Hx) in Hz.
    apply elem_of_app in Hz as [Hz | ->%list_elem_of_singleton].
    + specialize (Hseen z Hz).
      destruct Hpass as [_ | requeue c Hacc Hre]; simpl; [done |].
      rewrite fmap_app, elem_of_app. by left.
    + destruct Hpass as [Hskip | requeue c Hacc Hre]; simpl.
      * apply occurrences_pos. specialize (Hcap x Hxin). rewrite Hcnt in Hskip. lia.
      * rewrite fmap_app, elem_of_app. right. simpl. left.
Qed.

Lemma runLoop_consumed randomizeRepeats count pool0 (ids : list Z) :
  (∀ x, x ∈ pool0 → 1 ≤ repeatCap x) →
  NoDup ids → (∀ i, i ∈ ids → i ∈ RoomItem.itemId <$> pool0) →
  count ≤ Z.of_nat (length ids) →
  ∀ fuel k s, consumed count pool0 k s →
    ∃ k', consumed count pool0 k' (runLoop randomizeRepeats count fuel s).
Proof.
  intros Hcap Hnd Hids Hcount fuel.
  induction fuel as [|fuel IH]; intros k s Hcons; simpl; [by exists k |].
  destruct (loopGuard count s) eqn:Hg; [| by exists k].
  apply (IH (S k)). by eapply consumed_loopBody.
Qed.

(** With pairwise distinct items and caps of at least one, the loop cannot
    run out of pool before the result has [count] entries. *)
Lemma consumePool_fills randomizeRepeats count pool (ids : list Z) :
  (∀ x, x ∈ pool → 1 ≤ repeatCap x) →
  NoDup ids → (∀ i, i ∈ ids → i ∈ RoomItem.itemId <$> pool) →
  0 ≤ count ≤ Z.of_nat (length ids) →
  Z.of_nat (length (result (consumePool randomizeRepeats count pool))) = count.
Proof.
  intros Hcap Hnd Hids [Hpos Hcount].
  pose proof (consumePool_length randomizeRepeats count pool) as Hle.
  pose proof (runLoop_exits randomizeRepeats count (loopFuel count (mkLoop pool ∅ []))
                (mkLoop pool ∅ []) (passesLeft_le_loopFuel _ _)) as Hexit.
  destruct (runLoop_consumed randomizeRepeats count pool ids Hcap Hnd Hids Hcount
              (loopFuel count (mkLoop pool ∅ [])) 0%nat _ (consumed_init count pool))
    as (k & Hcons).
  fold (consumePool randomizeRepeats count pool) in Hexit, Hcons.
  set (s := consumePool randomizeRepeats count pool) in *.
  unfold loopGuard in Hexit. apply andb_false_iff in Hexit as [Hfull | Hempty].
  - apply bool_decide_eq_false in Hfull. lia.
  - apply bool_decide_eq_false in Hempty.
    pose proof Hcons as (Hk & (requeued & Hpool) & _).
    assert (k = length pool) as ->.
    { destruct (decide (k = length pool)) as [|Hne]; [done |].
      destruct (lookup_lt_is_Some_2 pool k) as [x Hx]; [lia |].
      rewrite (drop_S _ _ _ Hx) in Hpool. rewrite Hpool in Hempty. simpl in Hempty. lia. }
    pose proof (consumed_all_full count pool ids s Hnd Hids Hcons). lia.
Qed.

(** A room that does not randomize repeats never re-queues: each pass
    shortens the pool. *)
Lemma iterations_no_requeue count fuel s :
  (iterations false count fuel s ≤ length (itemPool s))%nat.
Proof.
  revert s. induction fuel as [|fuel IH]; intros s; simpl; [lia |].
  destruct (loopGuard count s) eqn:Hg; [| lia].
  apply loopGuard_true in Hg as [_ (x & rest & Hpool)].
  specialize (IH (loopBody false count s)). rewrite Hpool. revert IH.
  destruct (loopBody_pass false count s x rest Hpool) as [_ | requeue c _ Hre];
    simpl; [lia |].
  destruct Hre as [-> | (_ & Hrr & _)]; [| done]. rewrite app_nil_r. lia.
Qed.

Lemma drawnInOrder_loopBody count pool0 s :
  drawnInOrder pool0 s → loopGuard count s = true →
  drawnInOrder pool0 (loopBody false count s).
Proof.
  intros (taken & Hpool0 & Hsub) [_ (x & rest & Hpool)]%loopGuard_true.
  rewrite Hpool in Hpool0.
  exists (taken ++ [x]).
  destruct (loopBody_pass false count s x rest Hpool) as [_ | requeue c _ Hre]; simpl.
  - split; [by rewrite <- app_assoc | by apply sublist_inserts_r].
  - destruct Hre as [-> | (_ & Hrr & _)]; [| done]. rewrite app_nil_r.
    split; [by rewrite <- app_assoc | by apply sublist_app].
Qed.

Lemma consumePool_no_requeue_sublist count pool :
  result (consumePool false count pool) `sublist_of` pool.
Proof.
  unfold consumePool.
  destruct (runLoop_invariant (drawnInOrder pool) false count
              (drawnInOrder_loopBody count pool)
              (loopFuel count (mkLoop pool ∅ [])) (mkLoop pool ∅ []))
    as (taken & Hpool & Hsub).
  { exists []. split; [done | constructor]. }
  eapply sublist_inserts_r in Hsub. by rewrite <- Hpool in Hsub.
Qed.

(** ** The item drafter of the persistent backend, further *)

(** X1. The drafter never returns more than [count] assignments, and none
    for a negative [count]. *)
Theorem drafter_at_most_count shuffle room allRoomItems count :
  ∃ drawn,
    DatabaseStorage.getRandomRoomItemsWithDetails shuffle (Some room) allRoomItems count
    = Ok drawn ∧
    Z.of_nat (length drawn) ≤ Z.max count 0.
Proof.
  unfold DatabaseStorage.getRandomRoomItemsWithDetails. case_decide as Hsmall.
  - exists allRoomItems. split; [done | lia].
  - eexists. split; [done |]. apply consumePool_length.
Qed.

(** X2. Every assignment the drafter returns is an assignment of the pool
    it was given. *)
Theorem drafter_draws_from_pool shuffle room allRoomItems count :
  permuting shuffle →
  ∃ drawn,
    DatabaseStorage.getRandomRoomItemsWithDetails shuffle (Some room) allRoomItems count
    = Ok drawn ∧
    ∀ x, x ∈ drawn → x ∈ allRoomItems.
Proof.
  intros Hperm. unfold DatabaseStorage.getRandomRoomItemsWithDetails. case_decide as Hsmall.
  - by exists allRoomItems.
  - eexists. split; [done |]. intros x Hx%consumePool_from_pool.
    by rewrite (Hperm _ _), elem_of_buildItemPool in Hx.
Qed.

Lemma drafter_draws_from_pool_witness :
  permuting reverseOrder ∧
  ∃ drawn,
    DatabaseStorage.getRandomRoomItemsWithDetails reverseOrder (Some hall) loot 2
    = Ok drawn ∧
    ∀ x, x ∈ drawn → x ∈ loot.
Proof.
  split; [exact reverseOrder_permuting |].
  exact (drafter_draws_from_pool reverseOrder hall loot 2 reverseOrder_permuting).
Defined.

(** X3. When the assignments refer to pairwise distinct items and no
    repeatable one has a negative [maxRepeats], the drafter fills every
    slot it can: it returns exactly [min count (number of assignments)]
    assignments for a [count] that is not negative. *)
Theorem drafter_fills_slots shuffle room allRoomItems count :
  permuting shuffle →
  NoDup (RoomItem.itemId <$> allRoomItems) →
  (∀ x, x ∈ allRoomItems → RoomItem.canRepeat x = true → 0 ≤ RoomItem.maxRepeats x) →
  0 ≤ count →
  ∃ drawn,
    DatabaseStorage.getRandomRoomItemsWithDetails shuffle (Some room) allRoomItems count
    = Ok drawn ∧
    Z.of_nat (length drawn) = Z.min count (Z.of_nat (length allRoomItems)).
Proof.
  intros Hperm Hnd Hmax Hcount.
  unfold DatabaseStorage.getRandomRoomItemsWithDetails. case_decide as Hsmall.
  - exists allRoomItems. split; [done | lia].
  - eexists. split; [done |]. rewrite Z.min_l by lia.
    apply (consumePool_fills _ _ _ (RoomItem.itemId <$> allRoomItems)); [| done | |].
    + intros x Hx. rewrite (Hperm _ _), elem_of_buildItemPool in Hx.
      unfold repeatCap, js_or. specialize (Hmax x Hx).
      destruct (RoomItem.canRepeat x); [| lia]. case_decide; lia.
    + intros i (x & -> & Hx)%list_elem_of_fmap. apply list_elem_of_fmap_2.
      by rewrite (Hperm _ _), elem_of_buildItemPool.
    + rewrite length_fmap. lia.
Qed.

Lemma drafter_fills_slots_witness :
  permuting reverseOrder ∧
  NoDup (RoomItem.itemId <$> loot) ∧
  (∀ x, x ∈ loot → RoomItem.canRepeat x = true → 0 ≤ RoomItem.maxRepeats x) ∧
  0 ≤ 2 ∧
  ∃ drawn,
    DatabaseStorage.getRandomRoomItemsWithDetails reverseOrder (Some vault) loot 2
    = Ok drawn ∧
    Z.of_nat (length drawn) = Z.min 2 (Z.of_nat (length loot)).
Proof.
  assert (0 ≤ 2) as Hcount by lia.
  split; [exact reverseOrder_permuting |]. split; [exact loot_items_distinct |].
  split; [exact loot_maxRepeats |]. split; [exact Hcount |].
  exact (drafter_fills_slots reverseOrder vault loot 2 reverseOrder_permuting
           loot_items_distinct loot_maxRepeats Hcount).
Defined.

(** X4. For a room that does not randomize repeats, the loop takes at most
    [pool.length] passes, whatever the assignments. *)
Theorem no_requeue_iterations_bounded (shuffle : ∀ A : Type, list A → list A)
    room allRoomItems count :
  Room.randomizeRepeats room = false →
  let pool := shuffle _ (buildItemPool allRoomItems) in
  let s0 := mkLoop pool ∅ [] in
  (iterations (Room.randomizeRepeats room) count (loopFuel count s0) s0 ≤ length pool)%nat.
Proof. intros -> pool s0. apply (iterations_no_requeue count _ s0). Qed.

Lemma no_requeue_iterations_bounded_witness :
  let pool := keepOrder _ (buildItemPool runes) in
  let s0 := mkLoop pool ∅ [] in
  Room.randomizeRepeats vault = false ∧
  (iterations (Room.randomizeRepeats vault) 2 (loopFuel 2 s0) s0 ≤ length pool)%nat.
Proof.
  split; [reflexivity |].
  exact (no_requeue_iterations_bounded keepOrder vault runes 2 eq_refl).
Defined.

(** X5. For a room that does not randomize repeats, the assignments drawn
    by the loop come in the order of the shuffled pool: the result is the
    shuffled pool with entries left out. *)
Theorem no_requeue_in_pool_order (shuffle : ∀ A : Type, list A → list A)
    room allRoomItems count :
  Room.randomizeRepeats room = false →
  count < Z.of_nat (length allRoomItems) →
  ∃ drawn,
    DatabaseStorage.getRandomRoomItemsWithDetails shuffle (Some room) allRoomItems count
    = Ok drawn ∧
    drawn `sublist_of` shuffle _ (buildItemPool allRoomItems).
Proof.
  intros Hrr Hlong. unfold DatabaseStorage.getRandomRoomItemsWithDetails.
  rewrite decide_False by lia. eexists. split; [done |].
  rewrite Hrr. apply consumePool_no_requeue_sublist.
Qed.

Lemma no_requeue_in_pool_order_witness :
  Room.randomizeRepeats vault = false ∧
  2 < Z.of_nat (length loot) ∧
  ∃ drawn,
    DatabaseStorage.getRandomRoomItemsWithDetails reverseOrder (Some vault) loot 2
    = Ok drawn ∧
    drawn `sublist_of` reverseOrder _ (buildItemPool loot).
Proof.
  assert (2 < Z.of_nat (length loot)) as Hlong by (simpl; lia).
  split; [reflexivity |]. split; [exact Hlong |].
  exact (no_requeue_in_pool_order reverseOrder vault loot 2 eq_refl Hlong).
Defined.

(** ** The room selectors, further *)

Lemma pickRooms_from count l sel ids r :
  r ∈ fst (pickRooms count l sel ids) → r ∈ sel ∨ r ∈ l.
Proof.
  destruct (pickRooms_extends count l sel ids) as (ext & -> & Hext).
  intros [Hr | Hr]%elem_of_app; [by left | right; by apply Hext].
Qed.

(** X6. Every room the persistent selector returns is a room of the
    catalog; when the catalog is longer than [count], it is a room of
    positive probability. *)
Theorem selector_rooms_from_catalog shuffle allRooms count r :
  permuting shuffle →
  r ∈ DatabaseStorage.getRandomRooms shuffle allRooms count →
  r ∈ allRooms ∧ (count < Z.of_nat (length allRooms) → 0 < Room.probability r).
Proof.
  intros Hperm. unfold DatabaseStorage.getRandomRooms. case_decide as Hsmall.
  - intros Hr. split; [done | lia].
  - intros [Hr | Hr]%pickRooms_from; [inversion Hr |].
    rewrite (Hperm _ _) in Hr. apply elem_of_weightedRooms in Hr as [Hin Hp]. done.
Qed.

Lemma selector_rooms_from_catalog_witness :
  permuting reverseOrder ∧
  attic ∈ DatabaseStorage.getRandomRooms reverseOrder catalog 2 ∧
  attic ∈ catalog ∧ (2 < Z.of_nat (length catalog) → 0 < Room.probability attic).
Proof.
  assert (attic ∈ DatabaseStorage.getRandomRooms reverseOrder catalog 2) as Hin.
  { vm_compute. left. }
  split; [exact reverseOrder_permuting |]. split; [exact Hin |].
  exact (selector_rooms_from_catalog reverseOrder catalog 2 attic
           reverseOrder_permuting Hin).
Defined.

(** X7. For a [count] of at least one the persistent selector returns at
    most [count] rooms, whatever the catalog and the shuffle. *)
Theorem selector_at_most_count shuffle allRooms count :
  1 ≤ count →
  Z.of_nat (length (DatabaseStorage.getRandomRooms shuffle allRooms count)) ≤ count.
Proof.
  intros Hcount. unfold DatabaseStorage.getRandomRooms. case_decide as Hsmall; [done |].
  apply pickRooms_length. simpl. lia.
Qed.

Lemma selector_at_most_count_witness :
  1 ≤ 2 ∧
  Z.of_nat (length (DatabaseStorage.getRandomRooms reverseOrder catalog 2)) ≤ 2.
Proof.
  assert (1 ≤ 2) as Hcount by lia.
  split; [exact Hcount |].
  exact (selector_at_most_count reverseOrder catalog 2 Hcount).
Defined.

Lemma weightedCandidates_ids_distinct allRooms :
  NoDup (Room.id <$> allRooms) → NoDup (Room.id <$> weightedCandidates allRooms).
Proof.
  intros Hnd. apply (sublist_NoDup _ (Room.id <$> allRooms)); [exact Hnd |].
  apply fmap_sublist. unfold weightedCandidates. apply sublist_filter.
Qed.

Lemma selector_walk_length shuffle allRooms count :
  permuting shuffle →
  NoDup (Room.id <$> allRooms) →
  1 ≤ count < Z.of_nat (length allRooms) →
  Z.of_nat (length (DatabaseStorage.getRandomRooms shuffle allRooms count))
  = Z.min count (Z.of_nat (length (weightedCandidates allRooms))).
Proof.
  intros Hperm Hnd [Hcount Hlong]. unfold DatabaseStorage.getRandomRooms.
  rewrite decide_False by lia.
  set (shuffled := shuffle _ (weightedRooms allRooms)).
  assert (∀ r, r ∈ shuffled ↔ r ∈ weightedCandidates allRooms) as Hpool.
  { intros r. unfold shuffled, weightedCandidates.
    rewrite (Hperm _ _), elem_of_weightedRooms, list_elem_of_filter. tauto. }
  destruct (pickRooms_length count shuffled [] ∅) as [Hle Hshort]; [simpl; lia |].
  destruct (pickRooms_tracked count shuffled [] ∅ tracked_nil) as [Hids Hsel].
  assert (Room.id <$> (pickRooms count shuffled [] ∅).1
          ⊆+ Room.id <$> weightedCandidates allRooms) as Hsub.
  { apply NoDup_submseteq; [done |].
    intros i (r & -> & [Hr | Hr]%pickRooms_from)%list_elem_of_fmap; [inversion Hr |].
    apply list_elem_of_fmap_2. by apply Hpool. }
  apply submseteq_length in Hsub. rewrite !length_fmap in Hsub.
  destruct (decide (Z.of_nat (length (pickRooms count shuffled [] ∅).1) = count))
    as [Heq | Hne]; [lia |].
  destruct Hshort as [_ Hseen]; [lia |].
  assert (Room.id <$> weightedCandidates allRooms
          ⊆+ Room.id <$> (pickRooms count shuffled [] ∅).1) as Hsub'.
  { apply NoDup_submseteq; [by apply weightedCandidates_ids_distinct |].
    intros i (r & -> & Hr)%list_elem_of_fmap. apply Hids, Hseen. by apply Hpool. }
  apply submseteq_length in Hsub'. rewrite !length_fmap in Hsub'. lia.
Qed.

(** X8. The persistent selector has no second walk: over a catalog with
    pairwise distinct ids that is longer than [count], it returns
    [min count (number of rooms of positive probability)] rooms, so fewer
    than [count] when too few rooms carry a weight. *)
Theorem selector_length_weighted shuffle allRooms count :
  permuting shuffle →
  NoDup (Room.id <$> allRooms) →
  1 ≤ count < Z.of_nat (length allRooms) →
  Z.of_nat (length (DatabaseStorage.getRandomRooms shuffle allRooms count))
  = Z.min count (Z.of_nat (length (weightedCandidates allRooms))).
Proof. apply selector_walk_length. Qed.


Lemma selector_length_weighted_witness :
  permuting reverseOrder ∧
  NoDup (Room.id <$> cellar :: catalog) ∧
  1 ≤ 3 < Z.of_nat (length (cellar :: catalog)) ∧
  Z.of_nat (length (DatabaseStorage.getRandomRooms reverseOrder (cellar :: catalog) 3))
  = Z.min 3 (Z.of_nat (length (weightedCandidates (cellar :: catalog)))).
Proof.
  assert (NoDup (Room.id <$> cellar :: catalog)) as Hnd by compute_done.
  assert (1 ≤ 3 < Z.of_nat (length (cellar :: catalog))) as Hcount by (simpl; lia).
  split; [exact reverseOrder_permuting |]. split; [exact Hnd |]. split; [exact Hcount |].
  exact (selector_length_weighted reverseOrder (cellar :: catalog) 3
           reverseOrder_permuting Hnd Hcount).
Defined.

(** X9. The in-memory selector never returns a room id twice, even over a
    catalog that repeats ids: it has no early return, and both of its walks
    skip the ids already selected. *)
Theorem mem_selector_no_duplicate shuffle allRooms count :
  NoDup (Room.id <$> MemStorage.getRandomRooms shuffle allRooms count).
Proof.
  unfold MemStorage.getRandomRooms.
  pose proof (pickRooms_tracked count (shuffle _ (weightedRooms allRooms)) [] ∅ tracked_nil)
    as Ht.
  destruct (pickRooms count (shuffle _ (weightedRooms allRooms)) [] ∅)
    as [selectedRooms selectedIds]; simpl in Ht.
  case_decide; [| by destruct Ht].
  by destruct (pickRooms_tracked count allRooms selectedRooms selectedIds Ht).
Qed.

(** X10. The second walk of the in-memory selector makes up for rooms
    without weight: for a [count] of at least one it returns exactly
    [min count (number of distinct room ids)] rooms, whatever the
    probabilities. *)
Theorem mem_selector_length shuffle allRooms count :
  permuting shuffle →
  1 ≤ count →
  Z.of_nat (length (MemStorage.getRandomRooms shuffle allRooms count))
  = Z.min count (Z.of_nat (distinctRooms allRooms)).
Proof.
  intros Hperm Hcount.
  unfold MemStorage.getRandomRooms.
  set (shuffled := shuffle _ (weightedRooms allRooms)).
  pose proof (pickRooms_tracked count shuffled [] ∅ tracked_nil) as Ht.
  destruct (pickRooms_length count shuffled [] ∅) as [Hle _]; [simpl; lia |].
  assert (∀ r, r ∈ (pickRooms count shuffled [] ∅).1 → r ∈ allRooms) as Hfrom.
  { intros r [Hr | Hr]%pickRooms_from; [inversion Hr |].
    unfold shuffled in Hr. rewrite (Hperm _ _) in Hr.
    by apply elem_of_weightedRooms in Hr as [Hin _]. }
  destruct (pickRooms count shuffled [] ∅) as [selectedRooms selectedIds];
    simpl in Ht, Hle, Hfrom.
  assert (∀ sel, NoDup (Room.id <$> sel) → (∀ r, r ∈ sel → r ∈ allRooms) →
                 (length sel ≤ distinctRooms allRooms)%nat) as Hbound.
  { intros sel Hnd Hin. unfold distinctRooms. rewrite <- (length_fmap Room.id sel).
    apply submseteq_length, NoDup_submseteq; [done |].
    intros i (r & -> & Hr)%list_elem_of_fmap.
    apply elem_of_remove_dups, list_elem_of_fmap_2, Hin, Hr. }
  case_decide as Hshort.
  - destruct (pickRooms_length count allRooms selectedRooms selectedIds Hshort)
      as [Hle' Hall].
    destruct (pickRooms_tracked count allRooms selectedRooms selectedIds Ht)
      as [Hids' Hnd'].
    assert (length (pickRooms count allRooms selectedRooms selectedIds).1
            ≤ distinctRooms allRooms)%nat as Hup.
    { apply Hbound; [done |]. intros r [Hr | Hr]%pickRooms_from; [by apply Hfrom | done]. }
    destruct (decide (Z.of_nat (length (pickRooms count allRooms selectedRooms
                                          selectedIds).1) = count)) as [Heq | Hne]; [lia |].
    destruct Hall as [_ Hseen]; [lia |].
    assert (distinctRooms allRooms
            ≤ length (pickRooms count allRooms selectedRooms selectedIds).1)%nat as Hlow.
    { unfold distinctRooms.
      rewrite <- (length_fmap Room.id (pickRooms count allRooms selectedRooms selectedIds).1).
      apply submseteq_length, NoDup_submseteq; [apply NoDup_remove_dups |].
      intros i (r & -> & Hr)%elem_of_remove_dups%list_elem_of_fmap.
      by apply Hids', Hseen. }
    lia.
  - destruct Ht as [_ Hnd]. pose proof (Hbound selectedRooms Hnd Hfrom). lia.
Qed.

Lemma mem_selector_length_witness :
  permuting reverseOrder ∧
  1 ≤ 4 ∧
  Z.of_nat (length (MemStorage.getRandomRooms reverseOrder (cellar :: catalog) 4))
  = Z.min 4 (Z.of_nat (distinctRooms (cellar :: catalog))).
Proof.
  assert (1 ≤ 4) as Hcount by lia.
  split; [exact reverseOrder_permuting |]. split; [exact Hcount |].
  exact (mem_selector_length reverseOrder (cellar :: catalog) 4
           reverseOrder_permuting Hcount).
Defined.

(** ** The item drafter of the in-memory backend *)

Lemma slice0_sublist {A : Type} (l : list A) (count : Z) : slice0 l count `sublist_of` l.
Proof. unfold slice0. case_decide; apply sublist_take. Qed.

Lemma slice0_length {A : Type} (l : list A) (count : Z) :
  0 ≤ count → Z.of_nat (length (slice0 l count)) ≤ count.
Proof. intros Hc. unfold slice0. rewrite decide_False by lia. rewrite length_take. lia. Qed.

(** X11. For a [count] that is not negative the in-memory drafter returns
    at most [count] assignments, guaranteed ones included. *)
Theorem mem_drafter_at_most_count shuffle room allRoomItems count :
  0 ≤ count →
  ∃ drawn,
    MemStorage.getRandomRoomItemsWithDetails shuffle (Some room) allRoomItems count
    = Ok drawn ∧
    Z.of_nat (length drawn) ≤ count.
Proof.
  intros Hcount. unfold MemStorage.getRandomRoomItemsWithDetails.
  set (guaranteedItems := filter (λ item, RoomItem.isGuaranteed item = true) allRoomItems).
  set (randomItems := filter (λ item, RoomItem.isGuaranteed item = false) allRoomItems).
  case_decide as Hfull.
  - eexists. split; [done |]. by apply slice0_length.
  - case_decide as Hnone; [eexists; split; [done | lia] |].
    case_decide as Hfew.
    + eexists. split; [done |]. rewrite length_app. lia.
    + eexists. split; [done |]. rewrite length_app.
      pose proof (consumePool_length (Room.randomizeRepeats room)
                    (count - Z.of_nat (length guaranteedItems))
                    (shuffle _ (buildItemPool randomItems))).
      lia.
Qed.

Lemma mem_drafter_at_most_count_witness :
  0 ≤ 2 ∧
  ∃ drawn,
    MemStorage.getRandomRoomItemsWithDetails reverseOrder (Some hall) (key :: loot) 2
    = Ok drawn ∧
    Z.of_nat (length drawn) ≤ 2.
Proof.
  assert (0 ≤ 2) as Hcount by lia.
  split; [exact Hcount |].
  exact (mem_drafter_at_most_count reverseOrder hall (key :: loot) 2 Hcount).
Defined.

(** X12. When [count] leaves room for all guaranteed assignments, the
    in-memory drafter returns them all, in stored order, at the head of its
    result, and nothing guaranteed after them. *)
Theorem mem_drafter_guaranteed_first shuffle room allRoomItems count :
  let guaranteedItems := filter (λ item, RoomItem.isGuaranteed item = true) allRoomItems in
  permuting shuffle →
  Z.of_nat (length guaranteedItems) ≤ count →
  ∃ drawn,
    MemStorage.getRandomRoomItemsWithDetails shuffle (Some room) allRoomItems count
    = Ok (guaranteedItems ++ drawn) ∧
    ∀ x, x ∈ drawn → x ∈ allRoomItems ∧ RoomItem.isGuaranteed x = false.
Proof.
  intros guaranteedItems Hperm Hroom. unfold MemStorage.getRandomRoomItemsWithDetails.
  fold guaranteedItems.
  set (randomItems := filter (λ item, RoomItem.isGuaranteed item = false) allRoomItems).
  assert (∀ x, x ∈ randomItems → x ∈ allRoomItems ∧ RoomItem.isGuaranteed x = false)
    as Hrandom.
  { intros x Hx. by apply list_elem_of_filter in Hx as [Hx Hin]. }
  case_decide as Hfull.
  - exists []. rewrite app_nil_r. unfold slice0. rewrite decide_False by lia.
    rewrite firstn_all2 by lia. split; [done | intros x Hx; inversion Hx].
  - case_decide.
    + exists []. rewrite app_nil_r. split; [done | intros x Hx; inversion Hx].
    + case_decide; [by eexists |]. eexists. split; [done |].
      intros x Hx%consumePool_from_pool. apply Hrandom.
      by rewrite (Hperm _ _), elem_of_buildItemPool in Hx.
Qed.

Lemma mem_drafter_guaranteed_first_witness :
  let guaranteedItems := filter (λ item, RoomItem.isGuaranteed item = true) (key :: loot) in
  permuting reverseOrder ∧
  Z.of_nat (length guaranteedItems) ≤ 2 ∧
  ∃ drawn,
    MemStorage.getRandomRoomItemsWithDetails reverseOrder (Some hall) (key :: loot) 2
    = Ok (guaranteedItems ++ drawn) ∧
    ∀ x, x ∈ drawn → x ∈ key :: loot ∧ RoomItem.isGuaranteed x = false.
Proof.
  assert (Z.of_nat (length (filter (λ item, RoomItem.isGuaranteed item = true)
                              (key :: loot))) ≤ 2) as Hroom by (vm_compute; discriminate).
  split; [exact reverseOrder_permuting |]. split; [exact Hroom |].
  exact (mem_drafter_guaranteed_first reverseOrder hall (key :: loot) 2
           reverseOrder_permuting Hroom).
Defined.

Lemma occurrences_app {A : Type} `{EqDecision A} (x : A) (l k : list A) :
  occurrences x (l ++ k) = (occurrences x l + occurrences x k)%nat.
Proof. unfold occurrences. by rewrite filter_app, length_app. Qed.

Lemma occurrences_zero {A : Type} `{EqDecision A} (x : A) (l : list A) :
  x ∉ l → occurrences x l = 0%nat.
Proof.
  intros Hx. pose proof (occurrences_pos x l) as Hpos.
  destruct (occurrences x l); [done |]. exfalso. apply Hx, Hpos. lia.
Qed.

Lemma occurrences_sublist {A : Type} `{EqDecision A} (x : A) (l k : list A) :
  l `sublist_of` k → (occurrences x l ≤ occurrences x k)%nat.
Proof.
  intros Hsub. unfold occurrences. apply sublist_length.
  induction Hsub as [|y l k Hsub IH|y l k Hsub IH]; [constructor | |].
  - destruct (decide (y = x)) as [Heq | Hne].
    + rewrite !filter_cons_True by done. by constructor.
    + by rewrite !filter_cons_False by done.
  - destruct (decide (y = x)) as [Heq | Hne].
    + rewrite filter_cons_True by done. by constructor.
    + by rewrite filter_cons_False by done.
Qed.

(** The guaranteed and the weighted assignments split the pool. *)
Lemma occurrences_guaranteed_split (i : Z) (allRoomItems : list RoomItem.t) :
  (occurrences i (RoomItem.id <$>
                    filter (λ item, RoomItem.isGuaranteed item = true) allRoomItems)
   + occurrences i (RoomItem.id <$>
                      filter (λ item, RoomItem.isGuaranteed item = false) allRoomItems)
   = occurrences i (RoomItem.id <$> allRoomItems))%nat.
Proof.
  induction allRoomItems as [|x l IH]; [done |].
  assert (∀ k, occurrences i (RoomItem.id x :: k)
               = ((if decide (RoomItem.id x = i) then 1 else 0) + occurrences i k)%nat) as Hcons.
  { intros k. unfold occurrences. case_decide.
    - by rewrite filter_cons_True.
    - by rewrite filter_cons_False. }
  rewrite fmap_cons, Hcons, <- IH.
  destruct (RoomItem.isGuaranteed x) eqn:Hg.
  - rewrite (filter_cons_True (λ item, RoomItem.isGuaranteed item = true)) by done.
    rewrite (filter_cons_False (λ item, RoomItem.isGuaranteed item = false))
      by (rewrite Hg; done).
    rewrite fmap_cons, Hcons. lia.
  - rewrite (filter_cons_False (λ item, RoomItem.isGuaranteed item = true))
      by (rewrite Hg; done).
    rewrite (filter_cons_True (λ item, RoomItem.isGuaranteed item = false)) by done.
    rewrite fmap_cons, Hcons. lia.
Qed.

Lemma consumePool_capped randomizeRepeats count pool a :
  0 ≤ repeatCap a →
  Z.of_nat (occurrences a (result (consumePool randomizeRepeats count pool))) ≤ repeatCap a.
Proof.
  intros Ha. unfold consumePool.
  destruct (runLoop_invariant (capped pool) randomizeRepeats count
              (capped_loopBody pool _ count)
              (loopFuel count (mkLoop pool ∅ [])) _ (capped_init pool))
    as (_ & _ & Hocc).
  by apply Hocc.
Qed.

(** X13. The in-memory drafter respects the repeat caps as the persistent
    one does: over a pool with pairwise distinct assignment ids and no
    negative [maxRepeats], no assignment, guaranteed or not, is returned
    more often than its cap. *)
Theorem mem_repeat_cap_respected shuffle room allRoomItems count :
  permuting shuffle →
  NoDup (RoomItem.id <$> allRoomItems) →
  (∀ x, x ∈ allRoomItems → RoomItem.canRepeat x = true → 0 ≤ RoomItem.maxRepeats x) →
  ∃ drawn,
    MemStorage.getRandomRoomItemsWithDetails shuffle (Some room) allRoomItems count
    = Ok drawn ∧
    ∀ a, a ∈ allRoomItems →
      Z.of_nat (occurrences (RoomItem.id a) (RoomItem.id <$> drawn)) ≤ repeatCap a.
Proof.
  intros Hperm Hnd Hmax.
  assert (∀ a, a ∈ allRoomItems → 1 ≤ repeatCap a) as Hcap.
  { intros a Ha. unfold repeatCap, js_or. specialize (Hmax a Ha).
    destruct (RoomItem.canRepeat a); [| lia]. case_decide; lia. }
  unfold MemStorage.getRandomRoomItemsWithDetails.
  set (guaranteedItems := filter (λ item, RoomItem.isGuaranteed item = true) allRoomItems).
  set (randomItems := filter (λ item, RoomItem.isGuaranteed item = false) allRoomItems).
  assert (∀ i, (occurrences i (RoomItem.id <$> guaranteedItems)
                + occurrences i (RoomItem.id <$> randomItems) ≤ 1)%nat) as Hsplit.
  { intros i. unfold guaranteedItems, randomItems. rewrite occurrences_guaranteed_split.
    by apply occurrences_NoDup. }
  assert (∀ i l, l `sublist_of` guaranteedItems →
                 (occurrences i (RoomItem.id <$> l) ≤ 1)%nat) as Hhead.
  { intros i l Hsub. specialize (Hsplit i).
    pose proof (occurrences_sublist i _ _ (fmap_sublist RoomItem.id _ _ Hsub)). lia. }
  case_decide as Hfull.
  { eexists. split; [done |]. intros a Ha. specialize (Hcap a Ha).
    pose proof (Hhead (RoomItem.id a) _ (slice0_sublist guaranteedItems count)). lia. }
  case_decide as Hnone.
  { eexists. split; [done |]. intros a Ha. specialize (Hcap a Ha).
    assert (guaranteedItems `sublist_of` guaranteedItems) as Hrefl by reflexivity.
    pose proof (Hhead (RoomItem.id a) _ Hrefl). lia. }
  case_decide as Hfew.
  { eexists. split; [done |]. intros a Ha. specialize (Hcap a Ha).
    rewrite fmap_app, occurrences_app. specialize (Hsplit (RoomItem.id a)). lia. }
  eexists. split; [done |]. intros a Ha.
  set (drawn := result (consumePool (Room.randomizeRepeats room)
                          (count - Z.of_nat (length guaranteedItems))
                          (shuffle _ (buildItemPool randomItems)))).
  assert (∀ y, y ∈ drawn → y ∈ randomItems) as Hfrom.
  { intros y Hy%consumePool_from_pool.
    by rewrite (Hperm _ _), elem_of_buildItemPool in Hy. }
  rewrite fmap_app, occurrences_app. specialize (Hsplit (RoomItem.id a)).
  destruct (decide (a ∈ randomItems)) as [Hrand | Hnot].
  - assert (0 < occurrences (RoomItem.id a) (RoomItem.id <$> randomItems))%nat as Hone.
    { apply occurrences_pos. by apply list_elem_of_fmap_2. }
    rewrite (occurrences_fmap_eq RoomItem.id a drawn).
    + pose proof (consumePool_capped (Room.randomizeRepeats room)
                    (count - Z.of_nat (length guaranteedItems))
                    (shuffle _ (buildItemPool randomItems)) a) as Hocc.
      fold drawn in Hocc. specialize (Hcap a Ha). lia.
    + intros y Hy. apply (NoDup_fmap_eq _ _ _ _ Hnd); [| done].
      apply Hfrom, list_elem_of_filter in Hy. tauto.
  - rewrite (occurrences_zero (RoomItem.id a) (RoomItem.id <$> drawn)).
    + specialize (Hcap a Ha). lia.
    + intros (y & Heq & Hy)%list_elem_of_fmap. apply Hnot.
      assert (y = a) as <-; [| by apply Hfrom].
      apply (NoDup_fmap_eq RoomItem.id allRoomItems); [done | | done | done].
      apply Hfrom, list_elem_of_filter in Hy. tauto.
Qed.

Lemma mem_repeat_cap_respected_witness :
  permuting keepOrder ∧
  NoDup (RoomItem.id <$> loot) ∧
  (∀ x, x ∈ loot → RoomItem.canRepeat x = true → 0 ≤ RoomItem.maxRepeats x) ∧
  ∃ drawn,
    MemStorage.getRandomRoomItemsWithDetails keepOrder (Some hall) loot 2
    = Ok drawn ∧
    ∀ a, a ∈ loot →
      Z.of_nat (occurrences (RoomItem.id a) (RoomItem.id <$> drawn)) ≤ repeatCap a.
Proof.
  split; [exact keepOrder_permuting |]. split; [exact loot_ids_distinct |].
  split; [exact loot_maxRepeats |].
  exact (mem_repeat_cap_respected keepOrder hall loot 2 keepOrder_permuting
           loot_ids_distinct loot_maxRepeats).
Defined.

(** * The color theme store *)

(** ** [Map] operations *)

Lemma JsMap_get_set_eq {V : Type} (m : JsMap.t V) k v :
  JsMap.get (JsMap.set m k v) k = Some v.
Proof.
  induction m as [|[k' v'] m IH]; simpl.
  - by rewrite decide_True.
  - destruct (decide (k' = k)) as [-> | Hne]; simpl.
    + by rewrite decide_True.
    + by rewrite decide_False.
Qed.

Lemma JsMap_get_set_ne {V : Type} (m : JsMap.t V) k k' v :
  k ≠ k' → JsMap.get (JsMap.set m k v) k' = JsMap.get m k'.
Proof.
  intros Hne. induction m as [|[k0 v0] m IH]; simpl.
  - by rewrite decide_False.
  - destruct (decide (k0 = k)) as [-> | Hne0]; simpl.
    + by rewrite !decide_False.
    + by rewrite IH.
Qed.

Lemma JsMap_get_None {V : Type} (m : JsMap.t V) k :
  JsMap.get m k = None ↔ k ∉ JsMap.keys m.
Proof.
  unfold JsMap.keys. induction m as [|[k' v'] m IH]; simpl.
  - split; [intros _ Hk; inversion Hk | done].
  - rewrite not_elem_of_cons. destruct (decide (k' = k)) as [-> | Hne].
    + split; [done | intros [? _]; done].
    + rewrite IH. split; [intros Hk; split; [done | done] | intros [_ Hk]; done].
Qed.

Lemma JsMap_get_Some {V : Type} (m : JsMap.t V) k v :
  JsMap.wf m → (JsMap.get m k = Some v ↔ (k, v) ∈ m).
Proof.
  unfold JsMap.wf, JsMap.keys. induction m as [|[k' v'] m IH]; simpl; intros Hwf.
  - split; [done | intros Hk; inversion Hk].
  - apply NoDup_cons in Hwf as [Hk' Hwf]. rewrite elem_of_cons.
    destruct (decide (k' = k)) as [-> | Hne].
    + split; [intros [= ->]; by left |].
      intros [[= ->] | Hin]; [done |]. exfalso. apply Hk'.
      by apply (list_elem_of_fmap_2 fst) in Hin.
    + rewrite (IH Hwf). split; [by right | intros [[= ? ?] | Hin]; done].
Qed.

Lemma JsMap_keys_set {V : Type} (m : JsMap.t V) k v :
  JsMap.keys (JsMap.set m k v)
  = if JsMap.has m k then JsMap.keys m else JsMap.keys m ++ [k].
Proof.
  unfold JsMap.keys, JsMap.has. induction m as [|[k' v'] m IH]; [done |].
  cbn [JsMap.set JsMap.get]. destruct (decide (k' = k)) as [-> | Hne]; [done |].
  rewrite !fmap_cons, IH. by destruct (JsMap.get m k).
Qed.

Lemma JsMap_keys_set_stored {V : Type} (m : JsMap.t V) k v :
  k ∈ JsMap.keys m → JsMap.keys (JsMap.set m k v) = JsMap.keys m.
Proof.
  intros Hk. rewrite JsMap_keys_set. unfold JsMap.has.
  destruct (JsMap.get m k) eqn:Hget; [done |]. by apply JsMap_get_None in Hget.
Qed.

Lemma JsMap_get_keys {V : Type} (m : JsMap.t V) k v :
  JsMap.get m k = Some v → k ∈ JsMap.keys m.
Proof.
  intros Hget. destruct (decide (k ∈ JsMap.keys m)) as [|Hk]; [done |].
  apply JsMap_get_None in Hk. by rewrite Hk in Hget.
Qed.

Lemma JsMap_wf_set {V : Type} (m : JsMap.t V) k v :
  JsMap.wf m → JsMap.wf (JsMap.set m k v).
Proof.
  unfold JsMap.wf. rewrite JsMap_keys_set. unfold JsMap.has.
  destruct (JsMap.get m k) eqn:Hget; [done |].
  intros Hwf. apply NoDup_app. split; [done |]. split; [| apply NoDup_singleton].
  intros i Hi ->%list_elem_of_singleton. by apply JsMap_get_None in Hget.
Qed.

Lemma JsMap_elem_of_set {V : Type} (m : JsMap.t V) k v k' v' :
  JsMap.wf m →
  ((k', v') ∈ JsMap.set m k v ↔ (k' = k ∧ v' = v) ∨ (k' ≠ k ∧ (k', v') ∈ m)).
Proof.
  intros Hwf. rewrite <- (JsMap_get_Some _ _ _ (JsMap_wf_set m k v Hwf)).
  destruct (decide (k' = k)) as [-> | Hne].
  - rewrite JsMap_get_set_eq. split; [intros [= ->]; by left |].
    intros [[_ ->] | [? _]]; done.
  - rewrite JsMap_get_set_ne by done. rewrite (JsMap_get_Some _ _ _ Hwf).
    split; [by right | intros [[? _] | [_ ?]]; done].
Qed.



Lemma JsMap_set_fresh {V : Type} (pre suf : JsMap.t V) k v v' :
  k ∉ JsMap.keys pre →
  JsMap.set (pre ++ (k, v) :: suf) k v' = pre ++ (k, v') :: suf.
Proof.
  unfold JsMap.keys. induction pre as [|[k0 v0] pre IH]; simpl; intros Hk.
  - by rewrite decide_True.
  - apply not_elem_of_cons in Hk as [Hne Hk]. rewrite decide_False by done.
    by rewrite IH.
Qed.

(** ** The loop that takes the default flag off *)

Lemma clearDefaults_fmap touch (m : JsMap.t ColorTheme.t) :
  JsMap.wf m →
  ColorThemeStorage.clearDefaults touch m
  = (λ e, (e.1, clearedTheme touch e.1 e.2)) <$> m.
Proof.
  unfold ColorThemeStorage.clearDefaults, JsMap.wf, JsMap.keys.
  enough (∀ suf pre : JsMap.t ColorTheme.t,
            NoDup ((pre ++ suf).*1) →
            foldl (λ acc '(themeId, existingTheme),
                     if touch themeId && ColorTheme.isDefault existingTheme
                     then JsMap.set acc themeId (ColorTheme.withDefault existingTheme false)
                     else acc)
                  (pre ++ suf) suf
            = pre ++ ((λ e, (e.1, clearedTheme touch e.1 e.2)) <$> suf)) as Hgen.
  { intros Hwf. by apply (Hgen m []). }
  induction suf as [|[k v] suf IH]; intros pre Hnd; [done |].
  assert (k ∉ JsMap.keys pre) as Hk.
  { rewrite fmap_app in Hnd. apply NoDup_app in Hnd as (_ & Hdisj & _).
    intros Hk. apply (Hdisj k Hk). simpl. left. }
  cbn [foldl]. rewrite fmap_cons. cbn [fst snd].
  set (w := clearedTheme touch k v).
  assert ((if touch k && ColorTheme.isDefault v
           then JsMap.set (pre ++ (k, v) :: suf) k (ColorTheme.withDefault v false)
           else pre ++ (k, v) :: suf) = (pre ++ [(k, w)]) ++ suf) as ->.
  { unfold w, clearedTheme. destruct (touch k && ColorTheme.isDefault v);
      [rewrite JsMap_set_fresh by done |]; by rewrite <- app_assoc. }
  rewrite IH; [by rewrite <- app_assoc |].
  rewrite <- app_assoc. simpl. by rewrite fmap_app in *.
Qed.

Lemma clearDefaults_keys touch (m : JsMap.t ColorTheme.t) :
  JsMap.wf m → JsMap.keys (ColorThemeStorage.clearDefaults touch m) = JsMap.keys m.
Proof.
  intros Hwf. rewrite clearDefaults_fmap by done. unfold JsMap.keys.
  rewrite <- list_fmap_compose. done.
Qed.

Lemma clearDefaults_wf touch (m : JsMap.t ColorTheme.t) :
  JsMap.wf m → JsMap.wf (ColorThemeStorage.clearDefaults touch m).
Proof. intros Hwf. unfold JsMap.wf. by rewrite clearDefaults_keys. Qed.

Lemma elem_of_clearDefaults touch (m : JsMap.t ColorTheme.t) k v' :
  JsMap.wf m →
  ((k, v') ∈ ColorThemeStorage.clearDefaults touch m
   ↔ ∃ v, (k, v) ∈ m ∧ v' = clearedTheme touch k v).
Proof.
  intros Hwf. rewrite clearDefaults_fmap by done. rewrite list_elem_of_fmap. split.
  - intros ([k0 v] & [= -> ->] & Hin). by exists v.
  - intros (v & Hin & ->). by exists (k, v).
Qed.


Lemma clearedTheme_isDefault touch k v :
  ColorTheme.isDefault (clearedTheme touch k v) = true →
  touch k = false ∧ ColorTheme.isDefault v = true.
Proof.
  unfold clearedTheme. destruct (touch k) eqn:Ht, (ColorTheme.isDefault v) eqn:Hd;
    simpl; rewrite ?Hd; intros H; done.
Qed.

(** ** The default theme *)

Lemma getDefault_Some (m : JsMap.t ColorTheme.t) d :
  ColorThemeStorage.getDefaultColorTheme m = Some d →
  ∃ k, (k, d) ∈ m ∧ ColorTheme.isDefault d = true.
Proof.
  unfold ColorThemeStorage.getDefaultColorTheme, JsMap.values.
  intros [Hin Hd]%find_some. apply list_elem_of_In, list_elem_of_fmap in Hin
    as ([k v] & -> & Hin). by exists k.
Qed.

Lemma getDefault_unique (m : JsMap.t ColorTheme.t) k d :
  (k, d) ∈ m → ColorTheme.isDefault d = true →
  (∀ k' v', (k', v') ∈ m → ColorTheme.isDefault v' = true → v' = d) →
  ColorThemeStorage.getDefaultColorTheme m = Some d.
Proof.
  intros Hin Hd Huniq.
  destruct (ColorThemeStorage.getDefaultColorTheme m) as [d' |] eqn:Hfind.
  - apply getDefault_Some in Hfind as (k' & Hin' & Hd'). f_equal. by eapply Huniq.
  - unfold ColorThemeStorage.getDefaultColorTheme, JsMap.values in Hfind.
    pose proof (find_none _ _ Hfind d) as Hnone. rewrite Hd in Hnone.
    assert (true = false); [| done]. apply Hnone, list_elem_of_In.
    by apply (list_elem_of_fmap_2 snd) in Hin.
Qed.


Lemma withDefault_id theme b :
  ColorTheme.id (ColorTheme.withDefault theme b) = ColorTheme.id theme.
Proof. done. Qed.

(** The entries [setDefaultColorTheme] leaves. *)
Lemma setDefault_entries (m : JsMap.t ColorTheme.t) id theme k v :
  JsMap.wf m → JsMap.get m id = Some theme →
  ((k, v) ∈ (ColorThemeStorage.setDefaultColorTheme m id).1
   ↔ (k = id ∧ v = ColorTheme.withDefault theme true)
     ∨ (k ≠ id ∧ ∃ v0, (k, v0) ∈ m ∧ v = clearedTheme (λ _, true) k v0)).
Proof.
  intros Hwf Hget. unfold ColorThemeStorage.setDefaultColorTheme. rewrite Hget. simpl.
  rewrite JsMap_elem_of_set by (by apply clearDefaults_wf).
  by rewrite elem_of_clearDefaults.
Qed.

(** X14. [setDefaultColorTheme] on a stored theme leaves that theme, and no
    other, as the default, whatever the flags were before; it neither adds
    nor removes a theme. *)
Theorem setDefault_only_default (m : JsMap.t ColorTheme.t) id theme :
  JsMap.wf m →
  JsMap.get m id = Some theme →
  (ColorThemeStorage.setDefaultColorTheme m id).2 = Some (ColorTheme.withDefault theme true) ∧
  JsMap.keys (ColorThemeStorage.setDefaultColorTheme m id).1 = JsMap.keys m ∧
  ∀ k v, (k, v) ∈ (ColorThemeStorage.setDefaultColorTheme m id).1 →
         (ColorTheme.isDefault v = true ↔ k = id).
Proof.
  intros Hwf Hget. split; [| split].
  - unfold ColorThemeStorage.setDefaultColorTheme. by rewrite Hget.
  - unfold ColorThemeStorage.setDefaultColorTheme. rewrite Hget. simpl.
    rewrite JsMap_keys_set_stored; rewrite clearDefaults_keys by done; [done |].
    by eapply JsMap_get_keys.
  - intros k v Hin.
    apply (setDefault_entries m id theme k v Hwf Hget) in Hin
      as [[-> ->] | (Hne & v0 & Hin & ->)]; [done |].
    split; [| done]. by intros [[=] _]%clearedTheme_isDefault.
Qed.

(** X15. After [setDefaultColorTheme] on a stored theme,
    [getDefaultColorTheme] returns that theme, flagged as the default. *)
Theorem setDefault_then_getDefault (m : JsMap.t ColorTheme.t) id theme :
  JsMap.wf m →
  JsMap.get m id = Some theme →
  ColorThemeStorage.getDefaultColorTheme (ColorThemeStorage.setDefaultColorTheme m id).1
  = Some (ColorTheme.withDefault theme true).
Proof.
  intros Hwf Hget. apply (getDefault_unique _ id); [| done |].
  - apply (setDefault_entries m id theme); [done | done | by left].
  - intros k v Hin.
    apply (setDefault_entries m id theme k v Hwf Hget) in Hin
      as [[-> ->] | (Hne & v0 & Hin & ->)]; [done |].
    by intros [[=] _]%clearedTheme_isDefault.
Qed.

(** X16. [deleteColorTheme] never removes the default theme: whatever id it
    is given, [getDefaultColorTheme] answers afterwards what it answered
    before, and deleting the default theme itself is refused. *)
Theorem delete_spares_default (m : JsMap.t ColorTheme.t) id :
  JsMap.wf m →
  ColorThemeStorage.getDefaultColorTheme (ColorThemeStorage.deleteColorTheme m id).1
  = ColorThemeStorage.getDefaultColorTheme m ∧
  (∀ theme, JsMap.get m id = Some theme → ColorTheme.isDefault theme = true →
            ColorThemeStorage.deleteColorTheme m id = (m, Throw)).
Proof.
  intros Hwf. split.
  - unfold ColorThemeStorage.deleteColorTheme.
    destruct (JsMap.get m id) as [theme |] eqn:Hget; [| done].
    destruct (ColorTheme.isDefault theme) eqn:Hd; [done |]. simpl.
    assert (∀ e, e ∈ m → e.1 = id → ColorTheme.isDefault e.2 = false) as Hplain.
    { intros [k v] Hin Hk. simpl in *. subst k.
      apply (JsMap_get_Some _ _ _ Hwf) in Hin. by rewrite Hget in Hin; injection Hin as <-. }
    clear Hget Hwf. unfold ColorThemeStorage.getDefaultColorTheme, JsMap.values, JsMap.delete.
    induction m as [|[k v] m IH]; [done |].
    destruct (decide (k = id)) as [-> | Hne].
    + rewrite filter_cons_False by (simpl; intros Hk; by apply Hk).
      rewrite fmap_cons. simpl.
      pose proof (Hplain (id, v) ltac:(left) eq_refl) as Hv. simpl in Hv. rewrite Hv.
      apply IH. intros e He. apply Hplain. by right.
    + rewrite filter_cons_True by done. rewrite !fmap_cons. simpl.
      destruct (ColorTheme.isDefault v); [done |].
      apply IH. intros e He. apply Hplain. by right.
  - intros theme Hget Hd. unfold ColorThemeStorage.deleteColorTheme. by rewrite Hget, Hd.
Qed.

Lemma constructor_wf : JsMap.wf (MemThemes.colorThemes MemThemes.constructor).
Proof. compute_done. Qed.

Lemma constructor_light :
  JsMap.get (MemThemes.colorThemes MemThemes.constructor) 2
  = Some (ColorTheme.mk 2 "Light Mode" "Light theme with purple accents"
            "#8B5CF6" "#6D28D9" "#10B981" "#F9FAFB" "#111827" false).
Proof. reflexivity. Qed.

Lemma setDefault_only_default_witness :
  let m := MemThemes.colorThemes MemThemes.constructor in
  let light := ColorTheme.mk 2 "Light Mode" "Light theme with purple accents"
                 "#8B5CF6" "#6D28D9" "#10B981" "#F9FAFB" "#111827" false in
  JsMap.wf m ∧
  JsMap.get m 2 = Some light ∧
  (ColorThemeStorage.setDefaultColorTheme m 2).2 = Some (ColorTheme.withDefault light true) ∧
  JsMap.keys (ColorThemeStorage.setDefaultColorTheme m 2).1 = JsMap.keys m ∧
  ∀ k v, (k, v) ∈ (ColorThemeStorage.setDefaultColorTheme m 2).1 →
         (ColorTheme.isDefault v = true ↔ k = 2).
Proof.
  split; [exact constructor_wf |]. split; [exact constructor_light |].
  exact (setDefault_only_default _ 2 _ constructor_wf constructor_light).
Defined.

Lemma setDefault_then_getDefault_witness :
  let m := MemThemes.colorThemes MemThemes.constructor in
  let light := ColorTheme.mk 2 "Light Mode" "Light theme with purple accents"
                 "#8B5CF6" "#6D28D9" "#10B981" "#F9FAFB" "#111827" false in
  JsMap.wf m ∧
  JsMap.get m 2 = Some light ∧
  ColorThemeStorage.getDefaultColorTheme (ColorThemeStorage.setDefaultColorTheme m 2).1
  = Some (ColorTheme.withDefault light true).
Proof.
  split; [exact constructor_wf |]. split; [exact constructor_light |].
  exact (setDefault_then_getDefault _ 2 _ constructor_wf constructor_light).
Defined.

Lemma delete_spares_default_witness :
  let m := MemThemes.colorThemes MemThemes.constructor in
  JsMap.wf m ∧
  ColorThemeStorage.getDefaultColorTheme (ColorThemeStorage.deleteColorTheme m 3).1
  = ColorThemeStorage.getDefaultColorTheme m ∧
  (∀ theme, JsMap.get m 3 = Some theme → ColorTheme.isDefault theme = true →
            ColorThemeStorage.deleteColorTheme m 3 = (m, Throw)).
Proof.
  split; [exact constructor_wf |].
  exact (delete_spares_default _ 3 constructor_wf).
Defined.

(** ** What the theme methods keep *)




Lemma apply_id theme themeUpdate :
  ColorTheme.id (ColorThemeUpdate.apply theme themeUpdate) = ColorTheme.id theme.
Proof. done. Qed.



















(** * The rooms, items and assignments of the in-memory backend *)

Lemma mem_drafter_from_pool shuffle room allRoomItems count drawn x :
  permuting shuffle →
  MemStorage.getRandomRoomItemsWithDetails shuffle (Some room) allRoomItems count
  = Ok drawn →
  x ∈ drawn → x ∈ allRoomItems.
Proof.
  intros Hperm. unfold MemStorage.getRandomRoomItemsWithDetails.
  set (guaranteedItems := filter (λ item, RoomItem.isGuaranteed item = true) allRoomItems).
  set (randomItems := filter (λ item, RoomItem.isGuaranteed item = false) allRoomItems).
  assert (∀ y, y ∈ guaranteedItems → y ∈ allRoomItems) as Hg.
  { intros y Hy. by apply list_elem_of_filter in Hy as [_ Hy]. }
  assert (∀ y, y ∈ randomItems → y ∈ allRoomItems) as Hr.
  { intros y Hy. by apply list_elem_of_filter in Hy as [_ Hy]. }
  case_decide; [| case_decide; [| case_decide]]; intros [= <-] Hx.
  - apply Hg. eapply sublist_subseteq; [apply slice0_sublist | done].
  - by apply Hg.
  - apply elem_of_app in Hx as [Hx | Hx]; [by apply Hg | by apply Hr].
  - apply elem_of_app in Hx as [Hx | Hx]; [by apply Hg |].
    apply Hr. apply consumePool_from_pool in Hx.
    by rewrite (Hperm _ _), elem_of_buildItemPool in Hx.
Qed.

(** ** Deleting from a [Map] in a loop *)

Lemma foldl_delete_filter {V : Type} (ids : list Z) (m : JsMap.t V) :
  foldl JsMap.delete m ids = filter (λ e, e.1 ∉ ids) m.
Proof.
  revert m. induction ids as [|i ids IH]; intros m; simpl.
  - induction m as [|e m IHm]; [done |].
    rewrite filter_cons_True by apply not_elem_of_nil. by rewrite <- IHm.
  - rewrite IH. unfold JsMap.delete. induction m as [|e m IHm]; [done |].
    destruct (decide (e.1 = i)) as [Heq | Hne].
    + rewrite (filter_cons_False (λ e, e.1 ≠ i)) by (intros Hk; by apply Hk).
      rewrite (filter_cons_False (λ e, e.1 ∉ i :: ids)); [done |].
      intros Hk. apply Hk. rewrite Heq. left.
    + rewrite (filter_cons_True (λ e, e.1 ≠ i)) by done.
      destruct (decide (e.1 ∈ ids)) as [Hin | Hnin].
      * rewrite (filter_cons_False (λ e, e.1 ∉ ids)) by (intros Hk; by apply Hk).
        rewrite (filter_cons_False (λ e, e.1 ∉ i :: ids)); [done |].
        intros Hk. apply Hk. by right.
      * rewrite (filter_cons_True (λ e, e.1 ∉ ids)) by done.
        rewrite (filter_cons_True (λ e, e.1 ∉ i :: ids)); [by rewrite IHm |].
        by intros [? | ?]%elem_of_cons.
Qed.

Lemma filter_agree {A : Type} (P Q : A → Prop) `{∀ x, Decision (P x)}
    `{∀ x, Decision (Q x)} (l : list A) :
  (∀ x, x ∈ l → (P x ↔ Q x)) → filter P l = filter Q l.
Proof.
  induction l as [|x l IH]; intros Hagree; [done |].
  assert (filter P l = filter Q l) as Htl.
  { apply IH. intros y Hy. apply Hagree. by right. }
  destruct (decide (P x)) as [HP | HP].
  - rewrite (filter_cons_True P) by done.
    rewrite (filter_cons_True Q) by (apply Hagree; [left | done]). by rewrite Htl.
  - rewrite (filter_cons_False P) by done.
    rewrite (filter_cons_False Q); [done |]. intros HQ. apply HP, Hagree; [left | done].
Qed.

Lemma values_filter {V : Type} (Q : V → Prop) `{∀ v, Decision (Q v)} (m : JsMap.t V) :
  JsMap.values (filter (λ e, Q e.2) m) = filter Q (JsMap.values m).
Proof.
  unfold JsMap.values. induction m as [|[k v] m IH]; [done |].
  rewrite fmap_cons. simpl. destruct (decide (Q v)) as [HQ | HQ].
  - rewrite (filter_cons_True (λ e, Q e.2)) by done.
    rewrite (filter_cons_True Q) by done. by rewrite fmap_cons, IH.
  - rewrite (filter_cons_False (λ e, Q e.2)) by done.
    by rewrite (filter_cons_False Q) by done.
Qed.

(** Over assignments stored once and under their own ids, the loop deletes
    the selected assignments and no other, and keeps the order of the
    rest. *)
Lemma deleteAssignments_filter selected (m : JsMap.t RoomItem.t) :
  JsMap.wf m → (∀ k v, (k, v) ∈ m → RoomItem.id v = k) →
  MemStore.deleteAssignments selected m = filter (λ e, selected e.2 = false) m.
Proof.
  intros Hwf Hids. unfold MemStore.deleteAssignments. rewrite foldl_delete_filter.
  apply filter_agree. intros [k v] Hin. simpl.
  rewrite list_elem_of_fmap. split.
  - intros Hnot. destruct (selected v) eqn:Hsel; [| done]. exfalso. apply Hnot.
    exists v. split; [by rewrite (Hids k v Hin) |].
    apply list_elem_of_filter. split; [done |].
    by apply (list_elem_of_fmap_2 snd) in Hin.
  - intros Hsel (v' & -> & [Hsel' Hv']%list_elem_of_filter).
    apply list_elem_of_fmap in Hv' as ([k' w] & -> & Hin'). simpl in *.
    rewrite (Hids k' w Hin') in Hin.
    apply (JsMap_get_Some _ _ _ Hwf) in Hin, Hin'. congruence.
Qed.

Lemma getRoomItems_deleteAssignments selected st st' roomId :
  assignmentsKept st →
  MemStore.roomItems st' = MemStore.deleteAssignments selected (MemStore.roomItems st) →
  MemStore.getRoomItems st' roomId
  = filter (λ item, selected item = false) (MemStore.getRoomItems st roomId).
Proof.
  intros [Hwf Hids] Hst'. unfold MemStore.getRoomItems. rewrite Hst'.
  rewrite deleteAssignments_filter; [| done | intros k v Hin; by apply Hids].
  pose proof (values_filter (λ v, selected v = false) (MemStore.roomItems st)) as Hvalues.
  simpl in Hvalues. rewrite Hvalues.
  rewrite !list_filter_filter. apply filter_agree. intros x _. tauto.
Qed.

Lemma JsMap_get_delete_eq {V : Type} (m : JsMap.t V) k :
  JsMap.get (JsMap.delete m k) k = None.
Proof.
  apply JsMap_get_None. unfold JsMap.keys, JsMap.delete.
  intros ([k' v] & -> & [Hne _]%list_elem_of_filter)%list_elem_of_fmap. by apply Hne.
Qed.

Lemma JsMap_get_delete_ne {V : Type} (m : JsMap.t V) k k' :
  k ≠ k' → JsMap.get (JsMap.delete m k) k' = JsMap.get m k'.
Proof.
  intros Hne. unfold JsMap.delete. induction m as [|[k0 v0] m IH]; [done |].
  destruct (decide (k0 = k)) as [-> | Hne0].
  - rewrite filter_cons_False by (intros Hk; by apply Hk). simpl.
    by rewrite decide_False.
  - rewrite filter_cons_True by done. simpl. by rewrite IH.
Qed.

Lemma JsMap_has_Some {V : Type} (m : JsMap.t V) k :
  JsMap.has m k = true ↔ is_Some (JsMap.get m k).
Proof.
  unfold JsMap.has. destruct (JsMap.get m k); split; done.
Qed.

(** ** Deleting an item or a room *)

(** X20. Deleting a stored item takes with it every assignment of that
    item, in every room, and nothing else: the other assignments stay, in
    their order, and the other items stay. *)
Theorem deleteItem_cascades st id :
  assignmentsKept st →
  is_Some (MemStore.getItemById st id) →
  let deleted := MemStore.deleteItem st id in
  deleted.2 = true ∧
  MemStore.getItemById deleted.1 id = None ∧
  (∀ id', id' ≠ id → MemStore.getItemById deleted.1 id' = MemStore.getItemById st id') ∧
  ∀ roomId,
    MemStore.getRoomItems deleted.1 roomId
    = filter (λ roomItem, RoomItem.itemId roomItem ≠ id) (MemStore.getRoomItems st roomId).
Proof.
  intros Hkept Hitem%JsMap_has_Some. unfold MemStore.deleteItem, MemStore.getItemById in *.
  rewrite Hitem. simpl. split; [done |]. split; [apply JsMap_get_delete_eq |].
  split; [intros id' Hne; by apply JsMap_get_delete_ne |].
  intros roomId.
  rewrite (getRoomItems_deleteAssignments
             (λ roomItem, bool_decide (RoomItem.itemId roomItem = id)) st); [| done | done].
  apply filter_agree. intros x _. by rewrite bool_decide_eq_false.
Qed.

Lemma sampleStore_kept : assignmentsKept sampleStore.
Proof.
  split; [compute_done |]. intros k v Hin. vm_compute in Hin.
  repeat (apply elem_of_cons in Hin as [[= -> ->] | Hin]; [by vm_compute |]).
  inversion Hin.
Qed.

Lemma deleteItem_cascades_witness :
  let deleted := MemStore.deleteItem sampleStore 10 in
  assignmentsKept sampleStore ∧
  is_Some (MemStore.getItemById sampleStore 10) ∧
  deleted.2 = true ∧
  MemStore.getItemById deleted.1 10 = None ∧
  (∀ id', id' ≠ 10 →
          MemStore.getItemById deleted.1 id' = MemStore.getItemById sampleStore id') ∧
  ∀ roomId,
    MemStore.getRoomItems deleted.1 roomId
    = filter (λ roomItem, RoomItem.itemId roomItem ≠ 10)
             (MemStore.getRoomItems sampleStore roomId).
Proof.
  assert (is_Some (MemStore.getItemById sampleStore 10)) as Hitem by (by eexists).
  split; [exact sampleStore_kept |]. split; [exact Hitem |].
  exact (deleteItem_cascades sampleStore 10 sampleStore_kept Hitem).
Defined.

(** X21. Deleting a stored room takes with it every assignment of that
    room and leaves the assignments of every other room as they were. *)
Theorem deleteRoom_cascades st id :
  assignmentsKept st →
  is_Some (MemStore.getRoomById st id) →
  let deleted := MemStore.deleteRoom st id in
  deleted.2 = true ∧
  MemStore.getRoomById deleted.1 id = None ∧
  MemStore.getRoomItems deleted.1 id = [] ∧
  ∀ roomId, roomId ≠ id →
    MemStore.getRoomItems deleted.1 roomId = MemStore.getRoomItems st roomId.
Proof.
  intros Hkept Hroom%JsMap_has_Some. unfold MemStore.deleteRoom, MemStore.getRoomById in *.
  rewrite Hroom. simpl. split; [done |]. split; [apply JsMap_get_delete_eq |].
  assert (∀ roomId, MemStore.getRoomItems
            (MemStore.mk (JsMap.delete (MemStore.rooms st) id) (MemStore.items st)
               (MemStore.deleteAssignments
                  (λ item, bool_decide (RoomItem.roomId item = id)) (MemStore.roomItems st))
               (MemStore.roomId st) (MemStore.itemId st) (MemStore.roomItemId st)) roomId
          = filter (λ item, RoomItem.roomId item ≠ id) (MemStore.getRoomItems st roomId))
    as Hleft.
  { intros roomId.
    rewrite (getRoomItems_deleteAssignments
               (λ item, bool_decide (RoomItem.roomId item = id)) st); [| done | done].
    apply filter_agree. intros x _. by rewrite bool_decide_eq_false. }
  split.
  - rewrite Hleft. unfold MemStore.getRoomItems. rewrite list_filter_filter.
    induction (JsMap.values (MemStore.roomItems st)) as [|x l IH]; [done |].
    rewrite filter_cons_False; [done | tauto].
  - intros roomId Hne. rewrite Hleft. unfold MemStore.getRoomItems.
    rewrite list_filter_filter. apply filter_agree. intros x _. split; [tauto |].
    intros Hx. split; [congruence | done].
Qed.

Lemma deleteRoom_cascades_witness :
  let deleted := MemStore.deleteRoom sampleStore 1 in
  assignmentsKept sampleStore ∧
  is_Some (MemStore.getRoomById sampleStore 1) ∧
  deleted.2 = true ∧
  MemStore.getRoomById deleted.1 1 = None ∧
  MemStore.getRoomItems deleted.1 1 = [] ∧
  ∀ roomId, roomId ≠ 1 →
    MemStore.getRoomItems deleted.1 roomId = MemStore.getRoomItems sampleStore roomId.
Proof.
  assert (is_Some (MemStore.getRoomById sampleStore 1)) as Hroom by (by eexists).
  split; [exact sampleStore_kept |]. split; [exact Hroom |].
  exact (deleteRoom_cascades sampleStore 1 sampleStore_kept Hroom).
Defined.

(** ** Assigning an item to a room *)

Lemma JsMap_set_append {V : Type} (m : JsMap.t V) k v :
  JsMap.get m k = None → JsMap.set m k v = m ++ [(k, v)].
Proof.
  induction m as [|[k0 v0] m IH]; simpl; [done |].
  destruct (decide (k0 = k)); [done |]. intros Hget. by rewrite IH.
Qed.

Lemma counter_fresh st :
  assignmentsKept st → JsMap.get (MemStore.roomItems st) (MemStore.roomItemId st) = None.
Proof.
  intros [Hwf Hids]. destruct (JsMap.get _ _) as [v |] eqn:Hget; [| done].
  apply (JsMap_get_Some _ _ _ Hwf), Hids in Hget. lia.
Qed.

(** X22. Assigning a stored item to a stored room always adds an
    assignment, also when the room already has one of that item: the new
    assignment gets the counter as its id and the defaults for what was left
    out (a probability of 0 counts as left out), and goes last among the
    assignments of the room; the other rooms are not touched. *)
Theorem assignItemToRoom_appends st roomId itemId properties :
  assignmentsKept st →
  is_Some (MemStore.getRoomById st roomId) →
  is_Some (MemStore.getItemById st itemId) →
  let assigned := MemStore.assignItemToRoom st roomId itemId properties in
  let newItem :=
    RoomItem.mk (MemStore.roomItemId st) roomId itemId
      (js_or (default 100 (AssignmentProperties.probability properties)) 100)
      (default true (AssignmentProperties.canRepeat properties))
      (default 1 (AssignmentProperties.maxRepeats properties))
      (default false (AssignmentProperties.isGuaranteed properties)) in
  assigned.2 = Ok newItem ∧
  MemStore.getRoomItemsWithDetails assigned.1 roomId
  = MemStore.getRoomItemsWithDetails st roomId ++ [newItem] ∧
  ∀ other, other ≠ roomId →
    MemStore.getRoomItemsWithDetails assigned.1 other
    = MemStore.getRoomItemsWithDetails st other.
Proof.
  intros Hkept [room Hroom] [item Hitem] assigned newItem.
  pose proof (counter_fresh st Hkept) as Hfresh.
  unfold assigned, MemStore.assignItemToRoom. rewrite Hroom, Hitem.
  unfold MemStore.createRoomItem. simpl. fold newItem. split; [done |].
  unfold MemStore.getRoomItemsWithDetails, MemStore.getRoomItems. simpl.
  rewrite (JsMap_set_append _ _ _ Hfresh). unfold JsMap.values.
  rewrite fmap_app. change (([(MemStore.roomItemId st, newItem)] : JsMap.t RoomItem.t).*2)
    with [newItem].
  assert (is_Some (JsMap.get (MemStore.items st) (RoomItem.itemId newItem))) as Hstored.
  { unfold MemStore.getItemById in Hitem. simpl. by rewrite Hitem. }
  split.
  - rewrite !filter_app. f_equal.
    rewrite (filter_cons_True (λ i, RoomItem.roomId i = roomId)) by done.
    rewrite filter_nil. by rewrite filter_cons_True.
  - intros other Hne. rewrite filter_app.
    rewrite (filter_cons_False (λ i, RoomItem.roomId i = other)) by (simpl; congruence).
    by rewrite filter_nil, app_nil_r.
Qed.

Lemma assignItemToRoom_appends_witness :
  let properties := AssignmentProperties.mk (Some 0) None (Some 2) None in
  let assigned := MemStore.assignItemToRoom sampleStore 1 10 properties in
  let newItem := RoomItem.mk 5 1 10 100 true 2 false in
  assignmentsKept sampleStore ∧
  is_Some (MemStore.getRoomById sampleStore 1) ∧
  is_Some (MemStore.getItemById sampleStore 10) ∧
  assigned.2 = Ok newItem ∧
  MemStore.getRoomItemsWithDetails assigned.1 1
  = MemStore.getRoomItemsWithDetails sampleStore 1 ++ [newItem] ∧
  ∀ other, other ≠ 1 →
    MemStore.getRoomItemsWithDetails assigned.1 other
    = MemStore.getRoomItemsWithDetails sampleStore other.
Proof.
  assert (is_Some (MemStore.getRoomById sampleStore 1)) as Hroom by (by eexists).
  assert (is_Some (MemStore.getItemById sampleStore 10)) as Hitem by (by eexists).
  split; [exact sampleStore_kept |]. split; [exact Hroom |]. split; [exact Hitem |].
  exact (assignItemToRoom_appends sampleStore 1 10
           (AssignmentProperties.mk (Some 0) None (Some 2) None)
           sampleStore_kept Hroom Hitem).
Defined.

(** X23. Updating the properties of a stored assignment changes neither
    its id, nor its room, nor its item, and touches no other assignment. *)
Theorem updateRoomItemAssignment_keeps_place st id properties old :
  assignmentsKept st →
  JsMap.get (MemStore.roomItems st) id = Some old →
  let updated := MemStore.updateRoomItemAssignment st id properties in
  ∃ new,
    updated.2 = Some new ∧
    JsMap.get (MemStore.roomItems updated.1) id = Some new ∧
    RoomItem.id new = RoomItem.id old ∧
    RoomItem.roomId new = RoomItem.roomId old ∧
    RoomItem.itemId new = RoomItem.itemId old ∧
    JsMap.keys (MemStore.roomItems updated.1) = JsMap.keys (MemStore.roomItems st) ∧
    ∀ k, k ≠ id →
      JsMap.get (MemStore.roomItems updated.1) k = JsMap.get (MemStore.roomItems st) k.
Proof.
  intros Hkept Hget updated.
  unfold updated, MemStore.updateRoomItemAssignment, MemStore.updateRoomItem.
  rewrite Hget. simpl. eexists. split; [done |]. split; [apply JsMap_get_set_eq |].
  split; [done |]. split; [done |]. split; [done |]. split.
  - apply JsMap_keys_set_stored. by eapply JsMap_get_keys.
  - intros k Hne. by apply JsMap_get_set_ne.
Qed.

Lemma updateRoomItemAssignment_keeps_place_witness :
  let properties := AssignmentProperties.mk (Some 70) (Some false) None (Some true) in
  let updated := MemStore.updateRoomItemAssignment sampleStore 2 properties in
  assignmentsKept sampleStore ∧
  JsMap.get (MemStore.roomItems sampleStore) 2 = Some sword ∧
  ∃ new,
    updated.2 = Some new ∧
    JsMap.get (MemStore.roomItems updated.1) 2 = Some new ∧
    RoomItem.id new = RoomItem.id sword ∧
    RoomItem.roomId new = RoomItem.roomId sword ∧
    RoomItem.itemId new = RoomItem.itemId sword ∧
    JsMap.keys (MemStore.roomItems updated.1) = JsMap.keys (MemStore.roomItems sampleStore) ∧
    ∀ k, k ≠ 2 →
      JsMap.get (MemStore.roomItems updated.1) k
      = JsMap.get (MemStore.roomItems sampleStore) k.
Proof.
  assert (JsMap.get (MemStore.roomItems sampleStore) 2 = Some sword) as Hget by reflexivity.
  split; [exact sampleStore_kept |]. split; [exact Hget |].
  exact (updateRoomItemAssignment_keeps_place sampleStore 2
           (AssignmentProperties.mk (Some 70) (Some false) None (Some true)) sword
           sampleStore_kept Hget).
Defined.

(** ** What the assignment methods keep *)

Lemma assignmentsKept_set st id item :
  assignmentsKept st → RoomItem.id item = id → id < MemStore.roomItemId st →
  assignmentsKept (MemStore.withRoomItems st (JsMap.set (MemStore.roomItems st) id item)).
Proof.
  intros [Hwf Hids] Hid Hlt. split; simpl; [by apply JsMap_wf_set |].
  intros k v [[-> ->] | [_ Hin]]%JsMap_elem_of_set; [done | by apply Hids | done].
Qed.

Lemma assignmentsKept_subset st (roomItems : JsMap.t RoomItem.t) :
  assignmentsKept st → roomItems `sublist_of` MemStore.roomItems st →
  ∀ rooms items roomId itemId,
    assignmentsKept (MemStore.mk rooms items roomItems roomId itemId (MemStore.roomItemId st)).
Proof.
  intros [Hwf Hids] Hsub rooms items roomId itemId. split; simpl.
  - apply (sublist_NoDup _ (JsMap.keys (MemStore.roomItems st))); [done |].
    by apply fmap_sublist.
  - intros k v Hin. apply Hids. by eapply sublist_subseteq.
Qed.

Lemma deleteAssignments_sublist selected (m : JsMap.t RoomItem.t) :
  MemStore.deleteAssignments selected m `sublist_of` m.
Proof.
  unfold MemStore.deleteAssignments. rewrite foldl_delete_filter. apply sublist_filter.
Qed.

Lemma assignmentsKept_createRoomItem st item :
  assignmentsKept st → assignmentsKept (MemStore.createRoomItem st item).1.
Proof.
  intros [Hwf Hids]. unfold MemStore.createRoomItem. split; simpl; [by apply JsMap_wf_set |].
  intros k v [[-> ->] | [_ Hin]]%JsMap_elem_of_set; [| | done].
  - split; [done | lia].
  - destruct (Hids k v Hin). split; [done | lia].
Qed.

Lemma assignmentsKept_updateRoomItem st id itemUpdate :
  assignmentsKept st → assignmentsKept (MemStore.updateRoomItem st id itemUpdate).1.
Proof.
  intros Hkept. unfold MemStore.updateRoomItem.
  destruct (JsMap.get (MemStore.roomItems st) id) as [old |] eqn:Hget; [| done].
  pose proof Hkept as [Hwf Hids]. apply (JsMap_get_Some _ _ _ Hwf), Hids in Hget as [Hid Hlt].
  by apply assignmentsKept_set.
Qed.

Lemma assignmentsKept_after st c :
  assignmentsKept st → assignmentsKept (MemStore.after st c).
Proof.
  intros Hkept. destruct c; simpl.
  - by apply assignmentsKept_createRoomItem.
  - by apply assignmentsKept_updateRoomItem.
  - apply (assignmentsKept_subset st); [done | apply sublist_filter].
  - done.
  - unfold MemStore.deleteItem. destruct (negb _); [done |].
    apply (assignmentsKept_subset st); [done | apply deleteAssignments_sublist].
  - unfold MemStore.deleteRoom. destruct (negb _); [done |].
    apply (assignmentsKept_subset st); [done | apply deleteAssignments_sublist].
  - unfold MemStore.assignItemToRoom.
    destruct (MemStore.getRoomById st roomId); [| done].
    destruct (MemStore.getItemById st itemId); [| done].
    by apply (assignmentsKept_createRoomItem st).
  - by apply assignmentsKept_updateRoomItem.
  - apply (assignmentsKept_subset st); [done | apply sublist_filter].
Qed.

(** X24. Every mutating method of the store keeps the assignments in order:
    after any sequence of calls, each assignment is stored once, under its
    own id, and below the counter that numbers the next one. *)
Theorem assignments_kept_by_calls st (calls : list MemStore.call) :
  assignmentsKept st →
  assignmentsKept (foldl MemStore.after st calls).
Proof.
  revert st. induction calls as [|c calls IH]; intros st Hkept; simpl; [done |].
  by apply IH, assignmentsKept_after.
Qed.

Lemma assignments_kept_by_calls_witness :
  let calls :=
    [MemStore.AssignItemToRoom 2 11 (AssignmentProperties.mk None None None (Some true));
     MemStore.DeleteItem 10;
     MemStore.UpdateRoomItem 2 (RoomItemUpdate.mk (Some 2) None None None None None);
     MemStore.DeleteRoom 1;
     MemStore.RemoveItemFromRoom 5] in
  assignmentsKept sampleStore ∧
  assignmentsKept (foldl MemStore.after sampleStore calls).
Proof.
  intros calls. split; [exact sampleStore_kept |].
  exact (assignments_kept_by_calls sampleStore calls sampleStore_kept).
Defined.

(** ** Drawing from the store *)

(** X25. Drawing the items of a room from the store fails exactly when the
    room is not stored; otherwise every assignment drawn is an assignment of
    that room whose item is stored. *)
Theorem store_draw_from_room shuffle st roomId count :
  permuting shuffle →
  match MemStore.getRandomRoomItemsWithDetails shuffle st roomId count with
  | Throw => MemStore.getRoomById st roomId = None
  | Ok drawn =>
    is_Some (MemStore.getRoomById st roomId) ∧
    ∀ x, x ∈ drawn →
      RoomItem.roomId x = roomId ∧ is_Some (MemStore.getItemById st (RoomItem.itemId x))
  end.
Proof.
  intros Hperm. unfold MemStore.getRandomRoomItemsWithDetails.
  destruct (MemStore.getRoomById st roomId) as [room |] eqn:Hroom; [| done].
  destruct (MemStorage.getRandomRoomItemsWithDetails shuffle (Some room) _ count)
    as [drawn |] eqn:Hdraw.
  - split; [done |]. intros x Hx.
    apply (mem_drafter_from_pool _ _ _ _ _ _ Hperm Hdraw) in Hx.
    unfold MemStore.getRoomItemsWithDetails, MemStore.getRoomItems in Hx.
    apply list_elem_of_filter in Hx as [Hitem Hx].
    apply list_elem_of_filter in Hx as [Hx _]. done.
  - exfalso. unfold MemStorage.getRandomRoomItemsWithDetails in Hdraw.
    repeat case_decide; done.
Qed.

Lemma store_draw_from_room_witness :
  permuting reverseOrder ∧
  match MemStore.getRandomRoomItemsWithDetails reverseOrder sampleStore 1 2 with
  | Throw => MemStore.getRoomById sampleStore 1 = None
  | Ok drawn =>
    is_Some (MemStore.getRoomById sampleStore 1) ∧
    ∀ x, x ∈ drawn →
      RoomItem.roomId x = 1 ∧ is_Some (MemStore.getItemById sampleStore (RoomItem.itemId x))
  end.
Proof.
  split; [exact reverseOrder_permuting |].
  exact (store_draw_from_room reverseOrder sampleStore 1 2 reverseOrder_permuting).
Defined.

(** * The draw routes *)

(** With a [count] of zero or less the walk never breaks: it sees every
    room it walks over. *)
Lemma pickRooms_unbounded count l sel ids :
  count ≤ 0 →
  ids ⊆ snd (pickRooms count l sel ids) ∧
  ∀ r, r ∈ l → Room.id r ∈ snd (pickRooms count l sel ids).
Proof.
  intros Hc. revert sel ids. induction l as [|room rest IH]; intros sel ids; simpl.
  - split; [done | intros r Hr; inversion Hr].
  - destruct (decide (Room.id room ∈ ids)) as [Hin | Hnin].
    + destruct (IH sel ids) as [Hsub Hseen]. split; [done |].
      intros r [-> | Hr]%elem_of_cons; [by apply Hsub | by apply Hseen].
    + rewrite decide_False by (rewrite length_app; simpl; lia).
      destruct (IH (sel ++ [room]) (ids ∪ {[Room.id room]})) as [Hsub Hseen].
      split; [intros i Hi; apply Hsub, elem_of_union; by left |].
      intros r [-> | Hr]%elem_of_cons; [| by apply Hseen].
      apply Hsub, elem_of_union. right. by apply elem_of_singleton.
Qed.

Lemma weightedCandidates_all allRooms :
  (∀ r, r ∈ allRooms → 1 ≤ Room.probability r) → weightedCandidates allRooms = allRooms.
Proof.
  intros Hprob. unfold weightedCandidates. induction allRooms as [|r l IH]; [done |].
  rewrite filter_cons_True.
  - f_equal. apply IH. intros x Hx. apply Hprob. by right.
  - pose proof (Hprob r ltac:(left)). lia.
Qed.

Lemma selector_negative_count shuffle allRooms count :
  permuting shuffle →
  NoDup (Room.id <$> allRooms) →
  count < 0 →
  Z.of_nat (length (DatabaseStorage.getRandomRooms shuffle allRooms count))
  = Z.of_nat (length (weightedCandidates allRooms)).
Proof.
  intros Hperm Hnd Hcount. unfold DatabaseStorage.getRandomRooms.
  rewrite decide_False by lia.
  set (shuffled := shuffle _ (weightedRooms allRooms)).
  assert (∀ r, r ∈ shuffled ↔ r ∈ weightedCandidates allRooms) as Hpool.
  { intros r. unfold shuffled, weightedCandidates.
    rewrite (Hperm _ _), elem_of_weightedRooms, list_elem_of_filter. tauto. }
  destruct (pickRooms_unbounded count shuffled [] ∅) as [_ Hseen]; [lia |].
  destruct (pickRooms_tracked count shuffled [] ∅ tracked_nil) as [Hids Hsel].
  assert (Room.id <$> (pickRooms count shuffled [] ∅).1
          ⊆+ Room.id <$> weightedCandidates allRooms) as Hsub.
  { apply NoDup_submseteq; [done |].
    intros i (r & -> & [Hr | Hr]%pickRooms_from)%list_elem_of_fmap; [inversion Hr |].
    apply list_elem_of_fmap_2. by apply Hpool. }
  assert (Room.id <$> weightedCandidates allRooms
          ⊆+ Room.id <$> (pickRooms count shuffled [] ∅).1) as Hsub'.
  { apply NoDup_submseteq; [by apply weightedCandidates_ids_distinct |].
    intros i (r & -> & Hr)%list_elem_of_fmap. apply Hids, Hseen. by apply Hpool. }
  apply submseteq_length in Hsub, Hsub'. rewrite !length_fmap in Hsub, Hsub'. lia.
Qed.

(** X26. The random-rooms route never asks for zero rooms: a missing,
    unreadable or zero [count] stands for 3. Over a catalog with pairwise
    distinct ids and probabilities of at least one, it answers with
    [min count (number of rooms)] rooms for a positive [count], and with
    every room of the catalog for a negative one. *)
Theorem randomRooms_route shuffle parsed allRooms :
  permuting shuffle →
  NoDup (Room.id <$> allRooms) →
  (∀ r, r ∈ allRooms → 1 ≤ Room.probability r) →
  let count := Routes.randomRoomsCount parsed in
  let n := Z.of_nat (length allRooms) in
  count ≠ 0 ∧
  (parsed = None ∨ parsed = Some 0 → count = 3) ∧
  ∃ body,
    Routes.randomRooms shuffle parsed allRooms = Json body ∧
    (1 ≤ count → Z.of_nat (length body) = Z.min count n) ∧
    (count < 0 → Z.of_nat (length body) = n).
Proof.
  intros Hperm Hnd Hprob count n.
  assert (count ≠ 0) as Hnz.
  { unfold count, Routes.randomRoomsCount, js_or. case_decide; lia. }
  split; [done |]. split; [by intros [-> | ->] |].
  eexists. split; [done |]. split.
  - intros Hpos. destruct (decide (n ≤ count)) as [Hsmall | Hlong].
    + unfold DatabaseStorage.getRandomRooms. rewrite decide_True by done. lia.
    + rewrite selector_walk_length by (done || lia).
      rewrite weightedCandidates_all by done. done.
  - intros Hneg. rewrite selector_negative_count by done.
    by rewrite weightedCandidates_all.
Qed.

Lemma randomRooms_route_witness :
  let count := Routes.randomRoomsCount None in
  let n := Z.of_nat (length catalog) in
  permuting reverseOrder ∧
  NoDup (Room.id <$> catalog) ∧
  (∀ r, r ∈ catalog → 1 ≤ Room.probability r) ∧
  count ≠ 0 ∧
  ((None : option Z) = None ∨ None = Some 0 → count = 3) ∧
  ∃ body,
    Routes.randomRooms reverseOrder None catalog = Json body ∧
    (1 ≤ count → Z.of_nat (length body) = Z.min count n) ∧
    (count < 0 → Z.of_nat (length body) = n).
Proof.
  split; [exact reverseOrder_permuting |]. split; [exact catalog_ids_distinct |].
  split; [exact catalog_probabilities |].
  exact (randomRooms_route reverseOrder None catalog reverseOrder_permuting
           catalog_ids_distinct catalog_probabilities).
Defined.

(** A lookup that is rejected is answered with status 500, whatever the
    draw would give; the in-memory backend resolves such a lookup with
    [undefined] and is answered with 404. *)
Lemma randomItems_rejected_lookup getRoomById draw roomId :
  getRoomById roomId = Throw → Routes.randomItems getRoomById draw roomId = ServerError.
Proof. intros Hlookup. unfold Routes.randomItems. by rewrite Hlookup. Qed.

(** X27. The random-items route over the persistent backend, with the
    route's lookup and the drafter's two queries each an outcome of its own.
    It answers 404 exactly when its lookup finds no room. It answers 500
    exactly when its lookup is rejected (as for an id that is not a number),
    or when the room asks for at least one item and the drafter's lookup is
    rejected or finds no room, or the drafter's assignment query is
    rejected. Otherwise the body has at most [itemsToShow] entries, none
    when [itemsToShow] is zero or less, each of them an assignment the
    drafter's query returned. *)
Theorem randomItems_route (shuffle : ∀ A : Type, list A → list A)
    getRoomById drafterRoom drafterItems roomId :
  permuting shuffle →
  match Routes.randomItems getRoomById
          (Routes.drafter shuffle drafterRoom drafterItems) roomId with
  | NotFound => getRoomById roomId = Ok None
  | ServerError =>
    getRoomById roomId = Throw ∨
    ∃ found, getRoomById roomId = Ok (Some found) ∧
      0 < Room.itemsToShow found ∧
      (drafterRoom = Throw ∨ drafterRoom = Ok None ∨ drafterItems = Throw)
  | Json body =>
    ∃ found, getRoomById roomId = Ok (Some found) ∧
      Z.of_nat (length body) ≤ Z.max (Room.itemsToShow found) 0 ∧
      (Room.itemsToShow found ≤ 0 → body = []) ∧
      (0 < Room.itemsToShow found →
       ∃ room allRoomItems,
         drafterRoom = Ok (Some room) ∧ drafterItems = Ok allRoomItems ∧
         ∀ x, x ∈ body → x ∈ allRoomItems)
  end.
Proof.
  intros Hperm. unfold Routes.randomItems.
  destruct (getRoomById roomId) as [[found |] |] eqn:Hlookup; [| done | by left].
  case_decide as Hshow.
  - unfold Routes.drafter.
    destruct drafterRoom as [[room |] |];
      [| right; exists found; eauto | right; exists found; eauto].
    destruct drafterItems as [allRoomItems |];
      [| right; exists found; eauto 6].
    destruct (DatabaseStorage.getRandomRoomItemsWithDetails shuffle (Some room)
                allRoomItems (Room.itemsToShow found)) as [body |] eqn:Hdraw.
    + exists found. split; [done |].
      unfold DatabaseStorage.getRandomRoomItemsWithDetails in Hdraw.
      case_decide as Hsmall; injection Hdraw as <-.
      * split; [lia |]. split; [lia |]. intros _. by exists room, allRoomItems.
      * split; [apply consumePool_length |]. split; [lia |].
        intros _. exists room, allRoomItems. split; [done |]. split; [done |].
        intros x Hx%consumePool_from_pool.
        by rewrite (Hperm _ _), elem_of_buildItemPool in Hx.
    + unfold DatabaseStorage.getRandomRoomItemsWithDetails in Hdraw.
      by case_decide.
  - exists found. split; [done |]. split; [simpl; lia |]. split; [done |]. lia.
Qed.

Lemma randomItems_route_witness :
  permuting reverseOrder ∧
  match Routes.randomItems (λ _, Ok (Some hall))
          (Routes.drafter reverseOrder (Ok (Some hall)) (Ok loot)) (Some 1) with
  | NotFound => Ok (Some hall) = Ok None
  | ServerError =>
    Ok (Some hall) = Throw ∨
    ∃ found, Ok (Some hall) = Ok (Some found) ∧
      0 < Room.itemsToShow found ∧
      (Ok (Some hall) = Throw ∨ Ok (Some hall) = Ok None ∨ Ok loot = Throw)
  | Json body =>
    ∃ found, Ok (Some hall) = Ok (Some found) ∧
      Z.of_nat (length body) ≤ Z.max (Room.itemsToShow found) 0 ∧
      (Room.itemsToShow found ≤ 0 → body = []) ∧
      (0 < Room.itemsToShow found →
       ∃ room allRoomItems,
         Ok (Some hall) = Ok (Some room) ∧ Ok loot = Ok allRoomItems ∧
         ∀ x, x ∈ body → x ∈ allRoomItems)
  end.
Proof.
  split; [exact reverseOrder_permuting |].
  exact (randomItems_route reverseOrder (λ _, Ok (Some hall)) (Ok (Some hall)) (Ok loot)
           (Some 1) reverseOrder_permuting).
Defined.
